(** * Package [apperror]: structured errors, their gRPC codec and JSON logger

    A shallow embedding of [apperror/error.go], [apperror/grpc.go] and
    [apperror/gateway.go].  Go's [*AppError] is a pointer to a mutable struct
    and [ErrorFields] is a reference to a mutable map, so the embedding keeps
    an explicit store of structs and maps; every function of the package is a
    computation over that store which returns a value or panics. *)

From Stdlib Require Import ZArith Ascii.
From stdpp Require Import base option list strings gmap fin_maps.

Local Open Scope Z_scope.

(** ** Outcomes and the store-passing monad *)

(** What a Go call can do: return, panic, or (only for the fuel-bounded
    walk of a cause chain) exhaust its fuel. *)
Inductive outcome (A : Type) : Type :=
  | Ret (a : A)
  | Panic
  | OutOfFuel.
Arguments Ret {A} a.
Arguments Panic {A}.
Arguments OutOfFuel {A}.

(** A Go [error] interface value: the nil interface, a [*AppError]
    (the pointer itself may be nil: a typed nil), or an error of a foreign
    type, of which only its [Error()] text is kept. *)
Inductive error : Type :=
  | error_nil
  | error_app (p : option nat)
  | error_other (text : string).

(** [*AppError] and [ErrorFields] values: [None] is Go's nil. *)
Abbreviation ptr := (option nat).
Abbreviation mapref := (option nat).

Record AppError : Type := mkAppError {
  Service : string;
  Code : string;
  Message : string;
  Fields : mapref;
  cause : error;
  grpcCode : Z;       (* uint32 *)
  traceID : string
}.

Record heap : Type := mkHeap {
  objs : list AppError;
  maps : list (gmap string string)
}.

Definition M (A : Type) : Type := heap → outcome (A * heap).

Definition ret {A} (a : A) : M A := λ h, Ret (a, h).

Definition bind {A B} (m : M A) (k : A → M B) : M B :=
  λ h, match m h with
       | Ret (a, h') => k a h'
       | Panic => Panic
       | OutOfFuel => OutOfFuel
       end.

Definition panic {A} : M A := λ _, Panic.

Declare Scope go_scope.
Delimit Scope go_scope with go.
Notation "x <- m ;; k" := (bind m (λ x, k))
  (at level 100, m at next level, right associativity) : go_scope.
Notation "m ;;; k" := (bind m (λ _, k))
  (at level 100, right associativity) : go_scope.
Local Open Scope go_scope.

(** ** Store primitives *)

(** [*p]: nil (or a pointer outside the store) panics. *)
Definition load (p : ptr) : M AppError :=
  λ h, match p with
       | Some i => match objs h !! i with
                   | Some e => Ret (e, h)
                   | None => Panic
                   end
       | None => Panic
       end.

(** [&v] for a fresh struct value. *)
Definition alloc (e : AppError) : M ptr :=
  λ h, Ret (Some (length (objs h)), mkHeap (objs h ++ [e]) (maps h)).

(** [p.f = v]: the struct stored under [p] is overwritten in place. *)
Definition store (p : ptr) (f : AppError → AppError) : M unit :=
  λ h, match p with
       | Some i => match objs h !! i with
                   | Some e => Ret (tt, mkHeap (<[i:=f e]> (objs h)) (maps h))
                   | None => Panic
                   end
       | None => Panic
       end.

(** Reading a map ([len], [range], [m[k]]): a nil map reads as empty. *)
Definition read_map (r : mapref) : M (gmap string string) :=
  λ h, match r with
       | None => Ret (∅, h)
       | Some i => match maps h !! i with
                   | Some m => Ret (m, h)
                   | None => Panic
                   end
       end.

(** [make(ErrorFields, n)] and map literals. *)
Definition alloc_map (m : gmap string string) : M mapref :=
  λ h, Ret (Some (length (maps h)), mkHeap (objs h) (maps h ++ [m])).

(** [r[k] = v]: assignment to an entry of a nil map panics. *)
Definition map_assign (r : mapref) (k v : string) : M unit :=
  λ h, match r with
       | Some i => match maps h !! i with
                   | Some m => Ret (tt, mkHeap (objs h) (<[i:=<[k:=v]> m]> (maps h)))
                   | None => Panic
                   end
       | None => Panic
       end.

Definition set_Fields (e : AppError) (r : mapref) : AppError :=
  mkAppError (Service e) (Code e) (Message e) r (cause e) (grpcCode e) (traceID e).
Definition set_cause (e : AppError) (c : error) : AppError :=
  mkAppError (Service e) (Code e) (Message e) (Fields e) c (grpcCode e) (traceID e).
Definition set_grpcCode (e : AppError) (c : Z) : AppError :=
  mkAppError (Service e) (Code e) (Message e) (Fields e) (cause e) c (traceID e).
Definition set_traceID (e : AppError) (t : string) : AppError :=
  mkAppError (Service e) (Code e) (Message e) (Fields e) (cause e) (grpcCode e) t.

(** ** error.go *)

(** [New]: the fields not listed in the composite literal are zero. *)
Definition New (service code message : string) : M ptr :=
  alloc (mkAppError service code message None error_nil 0 "").

(** [Wrap]: [err == nil] compares the interface, so a typed nil is wrapped. *)
Definition Wrap (err : error) (appErr : ptr) : M ptr :=
  match err with
  | error_nil => ret None
  | _ => copyErr <- load appErr ;;
         alloc (set_cause copyErr err)
  end.

(** ** Text formatting: [fmt]'s [%q] verb (strconv.Quote) *)

(** The double quote character, as a one-character string. *)
Definition dq : string := String (ascii_of_N 34) "".

Definition lowerhex (n : N) : ascii :=
  match n with
  | 0 => "0" | 1 => "1" | 2 => "2" | 3 => "3" | 4 => "4" | 5 => "5"
  | 6 => "6" | 7 => "7" | 8 => "8" | 9 => "9" | 10 => "a" | 11 => "b"
  | 12 => "c" | 13 => "d" | 14 => "e" | _ => "f"
  end%N%char.

(** One byte below [utf8.RuneSelf]: the quote and the backslash are escaped,
    printable ASCII is copied, the seven named control characters use their
    letter, the others are written as [\xNN]. *)
Definition quote_ascii (c : ascii) : string :=
  let n := N_of_ascii c in
  if (n =? 34)%N then String "\" dq
  else if (n =? 92)%N then "\\"
  else if ((32 <=? n) && (n <=? 126))%N then String c ""
  else if (n =? 7)%N then "\a"
  else if (n =? 8)%N then "\b"
  else if (n =? 12)%N then "\f"
  else if (n =? 10)%N then "\n"
  else if (n =? 13)%N then "\r"
  else if (n =? 9)%N then "\t"
  else if (n =? 11)%N then "\v"
  else String "\" (String "x" (String (lowerhex (n / 16)) (String (lowerhex (n mod 16)) ""))).

Fixpoint quote_body (s : string) : string :=
  match s with
  | EmptyString => ""
  | String c s => quote_ascii c +:+ quote_body s
  end.

Fixpoint all_ascii (s : string) : bool :=
  match s with
  | EmptyString => true
  | String c s => (N_of_ascii c <? 128)%N && all_ascii s
  end.

Section Apperror.

(** Go leaves the iteration order of [range] over a map unspecified: the
    order is a parameter, of which only the entries it visits are known. *)
Variable range : gmap string string → list (string * string).
Hypothesis range_perm : ∀ m, range m ≡ₚ map_to_list m.

(** [strconv.Quote] on a string with a byte of [utf8.RuneSelf] or above
    decodes runes and consults the Unicode tables; that path is a parameter. *)
Variable Quote_utf8 : string → string.

(** [fmt.Sprintf("%q", s)]. *)
Definition Quote (s : string) : string :=
  if all_ascii s then dq +:+ quote_body s +:+ dq else Quote_utf8 s.

(** [WithFields]: the argument map is stored by reference. *)
Definition WithFields (e : ptr) (fields : mapref) : M ptr :=
  copyErr <- load e ;;
  alloc (set_Fields copyErr fields).

(** [for k, v := range src { dst[k] = v }] over the visited entries. *)
Fixpoint assign_all (dst : mapref) (entries : list (string * string)) : M unit :=
  match entries with
  | [] => ret tt
  | (k, v) :: entries => map_assign dst k v ;;; assign_all dst entries
  end.

Definition AddFields (e : ptr) (fields : mapref) : M ptr :=
  f <- read_map fields ;;
  if decide (size f = 0%nat) then ret e
  else
    copyErr <- load e ;;
    ef <- read_map (Fields copyErr) ;;
    newFields <- alloc_map ∅ ;;
    assign_all newFields (range ef) ;;;
    assign_all newFields (range f) ;;;
    alloc (set_Fields copyErr newFields).

(** [WithField]: the literal [ErrorFields{key: value}] is a fresh map. *)
Definition WithField (e : ptr) (key value : string) : M ptr :=
  fields <- alloc_map {[ key := value ]} ;;
  AddFields e fields.

(** The loop of [Error] over the fields, with its [first] flag. *)
Fixpoint render_fields (entries : list (string * string)) (first : bool)
    (msg : string) : string :=
  match entries with
  | [] => msg
  | (k, v) :: entries =>
      let msg := if first then msg else msg +:+ ", " in
      render_fields entries false (msg +:+ Quote k +:+ ":" +:+ Quote v)
  end.

(** [Error]: the call [e.cause.Error()] recurses along the cause chain; the
    recursion is bounded by [fuel]. *)
Fixpoint Error_fuel (fuel : nat) (e : ptr) : M string :=
  match fuel with
  | O => λ _, OutOfFuel
  | S fuel =>
      ev <- load e ;;
      let msg := "[" +:+ Service ev +:+ ":" +:+ Code ev +:+ "] " +:+ Message ev in
      fs <- read_map (Fields ev) ;;
      let msg := if decide (size fs = 0%nat) then msg
                 else render_fields (range fs) true (msg +:+ " [fields:{") +:+ "}]" in
      match cause ev with
      | error_nil => ret msg
      | error_app c => s <- Error_fuel fuel c ;; ret (msg +:+ ": " +:+ s)
      | error_other text => ret (msg +:+ ": " +:+ text)
      end
  end.

(** A cause chain without a cycle is no longer than the store has structs. *)
Definition Error (e : ptr) : M string :=
  λ h, Error_fuel (S (length (objs h))) e h.

(** The method call [err.Error()] on an interface value. *)
Definition error_Error (err : error) : M string :=
  match err with
  | error_nil => panic
  | error_app p => Error p
  | error_other text => ret text
  end.

Definition Unwrap (e : ptr) : M error :=
  ev <- load e ;;
  ret (cause ev).

(** The loop of [Is] over the target's fields, with its early return. *)
Fixpoint fields_match (ef : gmap string string) (entries : list (string * string)) : bool :=
  match entries with
  | [] => true
  | (key, val) :: entries =>
      match ef !! key with
      | Some v => if decide (v ≠ val) then false else fields_match ef entries
      | None => false
      end
  end.

Definition Is (e : ptr) (target : error) : M bool :=
  match target with
  | error_app t =>
      ev <- load e ;;
      tv <- load t ;;
      if decide (Service ev ≠ Service tv ∨ Code ev ≠ Code tv) then ret false
      else
        tf <- read_map (Fields tv) ;;
        ef <- read_map (Fields ev) ;;
        ret (fields_match ef (range tf))
  | _ => ret false
  end.

(** ** grpc.go *)

(** [uint32(x)] and [int32(x)] conversions. *)
Definition uint32 (x : Z) : Z := x mod 2 ^ 32.
Definition int32 (x : Z) : Z := (x + 2 ^ 31) mod 2 ^ 32 - 2 ^ 31.

(** The members of [codes.Code] the package names. *)
Definition codes_OK : Z := 0.
Definition codes_Unknown : Z := 2.
Definition codes_Internal : Z := 13.

(** Modelled from the spec: the generated type [pb.ErrorDetail] of the
    [grpc-api] module, the structured wire detail with the four fields
    service, code, message and fields (a string-to-string mapping).  On the
    wire the mapping is carried by content, not by reference. *)
Record ErrorDetail : Type := mkErrorDetail {
  pb_Service : string;
  pb_Code : string;
  pb_Message : string;
  pb_Fields : gmap string string
}.

(** One entry of a status's details: an [anypb.Any] that unpacks to a
    [*pb.ErrorDetail], or to anything else (another message type, or the
    error [Details] puts in place of an entry it cannot unpack). *)
Inductive Any : Type :=
  | Any_ErrorDetail (d : ErrorDetail)
  | Any_other.

(** [status.Status]: the [spb.Status] message it holds.  A status is never
    modified after it is built, so it is kept by value. *)
Record Status : Type := mkStatus {
  st_code : Z;        (* int32 *)
  st_message : string;
  st_details : list Any
}.

Definition status_New (c : Z) (msg : string) : Status :=
  mkStatus (int32 c) msg [].

Definition Status_Code (s : Status) : Z := uint32 (st_code s).
Definition Status_Message (s : Status) : string := st_message s.
Definition Status_Details (s : Status) : list Any := st_details s.

(** Whether protobuf marshals a detail (it refuses, for instance, a string
    that is not valid UTF-8); the codec is outside the package. *)
Variable proto_marshals : ErrorDetail → bool.

(** [WithDetails] of a status: refused on an OK status and when the detail
    does not marshal; otherwise a copy with the detail appended. *)
Definition Status_WithDetails (s : Status) (d : ErrorDetail) : Status + string :=
  if decide (Status_Code s = codes_OK) then inr "no error details for status with code OK"
  else if proto_marshals d
       then inl (mkStatus (st_code s) (st_message s) (st_details s ++ [Any_ErrorDetail d]))
       else inr "proto: marshal failed".

Definition WithGRPCCode (e : ptr) (code : Z) : M ptr :=
  copyErr <- load e ;;
  alloc (set_grpcCode copyErr (uint32 code)).

Definition GRPCStatus (e : ptr) : M Status :=
  ev <- load e ;;
  let code := grpcCode ev in
  let code := if decide (code = codes_OK) then codes_Unknown else code in
  let st := status_New code (Message ev) in
  fs <- read_map (Fields ev) ;;
  let detail := mkErrorDetail (Service ev) (Code ev) (Message ev) fs in
  match Status_WithDetails st detail with
  | inr _ => ret (status_New codes_Internal "failed to marshal error")
  | inl stWithDetail => ret stWithDetail
  end.

(** The loop of [FromGRPCStatus] over the details: the first entry that is
    a [*pb.ErrorDetail]. *)
Fixpoint first_ErrorDetail (details : list Any) : option ErrorDetail :=
  match details with
  | [] => None
  | Any_ErrorDetail detail :: _ => Some detail
  | Any_other :: details => first_ErrorDetail details
  end.

(** [detail.GetFields()]: the map of the unpacked message is a fresh one,
    and nil when the message carries no entry. *)
Definition GetFields (detail : ErrorDetail) : M mapref :=
  if decide (pb_Fields detail = ∅) then ret None else alloc_map (pb_Fields detail).

Definition FromGRPCStatus (st : option Status) : M ptr :=
  match st with
  | None => ret None
  | Some s =>
      match first_ErrorDetail (Status_Details s) with
      | Some detail =>
          fields <- GetFields detail ;;
          alloc (mkAppError (pb_Service detail) (pb_Code detail) (pb_Message detail)
                   fields error_nil (uint32 (Status_Code s)) "")
      | None =>
          alloc (mkAppError "unknown" "00000" (Status_Message s)
                   None error_nil (uint32 (Status_Code s)) "")
      end
  end.

(** ** gateway.go *)

(** A value of type [any] as [ctx.Value] returns it. *)
Inductive any : Type :=
  | any_nil
  | any_string (s : string)
  | any_other.

(** A [context.Context], as far as [ToJSON] reads it: the value bound to
    the key [TraceIDKey{}]. *)
Record Context : Type := mkContext { Value_TraceIDKey : any }.

(** A JSON document as [json.Marshal] writes it for the anonymous struct of
    [ToJSON]: the members in struct order, each a string or a string map. *)
Inductive jvalue : Type :=
  | JString (s : string)
  | JStringMap (m : gmap string string).

(** The bytes [ToJSON] returns: text glued together by [+], or the encoding
    [json.Marshal] produced for a document. *)
Inductive bytes : Type :=
  | bytes_text (s : string)
  | bytes_json (members : list (string * jvalue)).

(** A member whose tag says [omitempty]. *)
Definition omitempty_string (key s : string) : list (string * jvalue) :=
  if decide (s = "") then [] else [(key, JString s)].
Definition omitempty_map (key : string) (m : gmap string string) : list (string * jvalue) :=
  if decide (size m = 0%nat) then [] else [(key, JStringMap m)].

(** The members of [struct { *alias; TraceID string }]: the exported fields
    of [AppError] under their tags, then [trace_id]. *)
Definition alias_members (ev : AppError) (fs : gmap string string) (TraceID : string)
    : list (string * jvalue) :=
  omitempty_string "service" (Service ev) ++
  omitempty_string "code" (Code ev) ++
  [("message", JString (Message ev))] ++
  omitempty_map "fields" fs ++
  omitempty_string "trace_id" TraceID.

(** [json.Marshal] of that struct: strings and a string map always encode. *)
Definition json_Marshal (members : list (string * jvalue)) : bytes + string :=
  inl (bytes_json members).

Definition ToJSON (ctx : Context) (err : error) : M bytes :=
  match err with
  | error_app appErr =>
      match Value_TraceIDKey ctx with
      | any_string traceID => store appErr (λ ev, set_traceID ev traceID)
      | _ => ret tt
      end ;;;
      ev <- load appErr ;;
      fs <- read_map (Fields ev) ;;
      match json_Marshal (alias_members ev fs (traceID ev)) with
      | inr marshalErr =>
          ret (bytes_text ("{" +:+ dq +:+ "error" +:+ dq +:+ ":" +:+ dq +:+
                           "failed to marshal app error: " +:+ marshalErr +:+ dq +:+ "}"))
      | inl b => ret b
      end
  | _ =>
      s <- error_Error err ;;
      ret (bytes_text ("{" +:+ dq +:+ "error" +:+ dq +:+ ":" +:+ dq +:+ s +:+ dq +:+ "}"))
  end.

(** ** The gateway handler of package apperror *)

(** The methods of a [*status.Status] answer for the nil status too. *)
Definition pStatus_Code (st : option Status) : Z :=
  match st with
  | Some s => Status_Code s
  | None => codes_OK
  end.
Definition pStatus_Message (st : option Status) : string :=
  match st with
  | Some s => Status_Message s
  | None => ""
  end.
Definition pStatus_Details (st : option Status) : list Any :=
  match st with
  | Some s => Status_Details s
  | None => []
  end.

(** A foreign error may carry a gRPC status: it has the method
    [GRPCStatus] itself (a [*status.Error], what a gRPC client returns), or
    it wraps an error that has it.  [foreign_GRPCStatus text = Some st]
    says that [st] is the status [status.FromError] finds on the error with
    that text (for a wrapping error, the wrapped status under the text of
    the wrapper); [None] is for an error without a status, or with a nil
    one.

    [status.FromError] of grpc: nil gives the nil status; an [*AppError]
    has the method [GRPCStatus], which is called; a foreign error gives the
    status it carries, or else an Unknown status around its text and the
    flag false. *)
Definition status_FromError (foreign_GRPCStatus : string → option Status)
    (err : error) : M (option Status * bool) :=
  match err with
  | error_nil => ret (None, true)
  | error_app p => st <- GRPCStatus p ;; ret (Some st, true)
  | error_other text =>
      match foreign_GRPCStatus text with
      | Some st => ret (Some st, true)
      | None => ret (Some (status_New codes_Unknown text), false)
      end
  end.

(** [status.Convert]: [FromError] without the flag. *)
Definition status_Convert (foreign_GRPCStatus : string → option Status)
    (err : error) : M (option Status) :=
  r <- status_FromError foreign_GRPCStatus err ;; ret r.1.

(** [HTTPError]; the fields are kept by content, as they are encoded at
    once. *)
Record HTTPError : Type := mkHTTPError {
  http_Code : Z;
  http_Service : string;
  http_ServiceCode : string;
  http_Message : string;
  http_Fields : gmap string string;
  http_TraceID : string
}.

(** What the handler does to its [http.ResponseWriter], in order. *)
Inductive http_event : Type :=
  | Header_Set (key value : string)
  | WriteHeader (statusCode : Z)
  | Encode (resp : HTTPError)
  | DefaultHTTPErrorHandler (err : error).

(** Of grpc-gateway's runtime: the table [HTTPStatusFromCode], the content
    type the marshaler announces, and whether writing the encoded response
    fails. *)
Variable HTTPStatusFromCode : Z → Z.
Variable marshaler_ContentType : HTTPError → string.
Variable Encode_fails : HTTPError → bool.

(** The handler from the status on: [resp] as it is built, then written. *)
Definition handler_resp (ctx : Context) (st : option Status) : HTTPError :=
  let httpCode := HTTPStatusFromCode (pStatus_Code st) in
  let resp := mkHTTPError httpCode "" "" (pStatus_Message st) ∅ "" in
  let resp :=
    match first_ErrorDetail (pStatus_Details st) with
    | Some detail =>
        let Message := if decide (pb_Message detail ≠ "") then pb_Message detail
                       else http_Message resp in
        mkHTTPError (http_Code resp) (pb_Service detail) (pb_Code detail) Message
          (pb_Fields detail) (http_TraceID resp)
    | None => resp
    end in
  match Value_TraceIDKey ctx with
  | any_string traceID =>
      mkHTTPError (http_Code resp) (http_Service resp) (http_ServiceCode resp)
        (http_Message resp) (http_Fields resp) traceID
  | _ => resp
  end.

Definition GRPCAppErrorHandler (foreign_GRPCStatus : string → option Status)
    (ctx : Context) (err : error) : M (list http_event) :=
  st <- status_Convert foreign_GRPCStatus err ;;
  let httpCode := HTTPStatusFromCode (pStatus_Code st) in
  let resp := handler_resp ctx st in
  ret ([Header_Set "Content-Type" (marshaler_ContentType resp);
        WriteHeader httpCode;
        Encode resp]
       ++ if Encode_fails resp then [DefaultHTTPErrorHandler err] else []).

(** ** The draft package errors (an earlier, mutating design)

    Its struct has the fields of [AppError] but for [traceID], which stays
    empty here and is never read; its field [Cause] is [cause]. *)

(** [New] and [Wrap] of the draft: each value gets a map of its own. *)
Definition errors_New (service code message : string) : M ptr :=
  fields <- alloc_map ∅ ;;
  alloc (mkAppError service code message fields error_nil 0 "").

Definition errors_Wrap (err : error) (service code message : string) : M ptr :=
  fields <- alloc_map ∅ ;;
  alloc (mkAppError service code message fields err 0 "").

(** [WithGRPCCode] of the draft writes the code into the receiver. *)
Definition errors_WithGRPCCode (e : ptr) (c : Z) : M ptr :=
  store e (λ ev, set_grpcCode ev c) ;;;
  ret e.

(** [for k, v := range fields { e.Fields[k] = v }]. *)
Fixpoint errors_WithFields_loop (e : ptr) (entries : list (string * string)) : M unit :=
  match entries with
  | [] => ret tt
  | (k, v) :: entries =>
      ev <- load e ;;
      map_assign (Fields ev) k v ;;;
      errors_WithFields_loop e entries
  end.

(** [WithFields] of the draft writes into the receiver's own map. *)
Definition errors_WithFields (e : ptr) (fields : mapref) : M ptr :=
  f <- read_map fields ;;
  errors_WithFields_loop e (range f) ;;;
  ret e.

Definition errors_GRPCStatus (e : ptr) : M Status :=
  ev <- load e ;;
  let code := if decide (grpcCode ev ≠ codes_OK) then grpcCode ev else codes_Unknown in
  let st := status_New code (Message ev) in
  fs <- read_map (Fields ev) ;;
  let errDetail := mkErrorDetail (Service ev) (Code ev) (Message ev) fs in
  match Status_WithDetails st errDetail with
  | inr _ => ret (status_New codes_Internal "failed to add error details")
  | inl st => ret st
  end.

Definition errors_FromGRPCStatus (st : option Status) : M ptr :=
  match st with
  | None => ret None
  | Some s =>
      let code := Status_Code s in
      match first_ErrorDetail (Status_Details s) with
      | Some errDetail =>
          fields <- GetFields errDetail ;;
          alloc (mkAppError (pb_Service errDetail) (pb_Code errDetail)
                   (pb_Message errDetail) fields error_nil code "")
      | None =>
          alloc (mkAppError "unknown" "00000" (Status_Message s) None error_nil code "")
      end
  end.

(** ** Vocabulary of the statements *)

(** The content a map reference denotes in a store (nil denotes the empty
    content); [None] for a reference outside the store. *)
Definition fields_of (h : heap) (r : mapref) : option (gmap string string) :=
  match r with
  | None => Some ∅
  | Some i => maps h !! i
  end.

(** [h'] keeps every struct and every map of [h] as it was, and may hold
    more of them. *)
Definition heap_ext (h h' : heap) : Prop :=
  objs h `prefix_of` objs h' ∧ maps h `prefix_of` maps h'.

(** A cause that is a struct of the store is older than the struct that
    holds it. *)
Definition cause_below (i : nat) (c : error) : bool :=
  match c with
  | error_app (Some j) => bool_decide (j < i)%nat
  | _ => true
  end.

Fixpoint causes_below (i : nat) (l : list AppError) : bool :=
  match l with
  | [] => true
  | e :: l => cause_below i (cause e) && causes_below (S i) l
  end.

(** The cause links of the store form no cycle. *)
Definition acyclic (h : heap) : Prop := causes_below 0 (objs h) = true.

(** The text [Error] puts after the message for the fields. *)
Definition fields_text (fs : gmap string string) : string :=
  if decide (size fs = 0%nat) then ""
  else render_fields (range fs) true " [fields:{" +:+ "}]".

(** The text of one call of [Error] before the cause is appended. *)
Definition head_text (ev : AppError) (fs : gmap string string) : string :=
  "[" +:+ Service ev +:+ ":" +:+ Code ev +:+ "] " +:+ Message ev +:+ fields_text fs.

(** One entry as [Error] writes it, and texts joined by a separator. *)
Definition entry_text (kv : string * string) : string :=
  Quote kv.1 +:+ ":" +:+ Quote kv.2.

Fixpoint join (sep : string) (l : list string) : string :=
  match l with
  | [] => ""
  | [x] => x
  | x :: l => x +:+ sep +:+ join sep l
  end.

(** Merging [entries] into [m], later entries overwriting earlier ones. *)
Definition merge_entries (m : gmap string string) (entries : list (string * string))
    : gmap string string :=
  foldl (λ acc kv, <[kv.1 := kv.2]> acc) m entries.

(** Concrete stores for the examples: a value with one field and the gRPC
    code NotFound (5); the same store with a second map, the argument of an
    [AddFields]; and a value wrapped around another one. *)
Definition example_value : AppError :=
  mkAppError "user-service" "US-404" "user not found" (Some 0%nat) error_nil 5 "".

Definition example_store : heap :=
  mkHeap [example_value] [{[ "id" := "456" ]}].

Definition example_store_arg : heap :=
  mkHeap [example_value] [{[ "id" := "456" ]}; {[ "id" := "789" ]}].

Definition example_chain : heap :=
  mkHeap [mkAppError "net" "N1" "connection refused" None error_nil 0 "";
          mkAppError "database" "DB-500" "internal database error" None
            (error_app (Some 0%nat)) 0 ""] [].

(** A store with a value that has no map, as [FromGRPCStatus] builds from a
    status without a detail, and a map to add to it; and a small table of
    HTTP codes for the handler. *)
Definition example_store_nil_map : heap :=
  mkHeap [mkAppError "unknown" "00000" "boom" None error_nil 2 ""] [{[ "k" := "v" ]}].

Definition example_http_code (c : Z) : Z :=
  if decide (c = 0) then 200 else if decide (c = 5) then 404 else 500.

(** * Properties *)

(** ** The store primitives *)

Lemma heap_eta h : mkHeap (objs h) (maps h) = h.
Proof. by destruct h. Qed.

Lemma load_lookup i e h : objs h !! i = Some e → load (Some i) h = Ret (e, h).
Proof. intros H. unfold load. by rewrite H. Qed.

Lemma read_map_fields_of r m h : fields_of h r = Some m → read_map r h = Ret (m, h).
Proof.
  destruct r as [i|]; simpl; intros H.
  - by rewrite H.
  - by injection H as <-.
Qed.

Lemma fields_of_ext h h' r m : heap_ext h h' → fields_of h r = Some m → fields_of h' r = Some m.
Proof.
  intros [_ Hm]. destruct r as [i|]; simpl; [|done].
  intros Hi. by eapply prefix_lookup_Some.
Qed.

Lemma lookup_ext h h' i e : heap_ext h h' → objs h !! i = Some e → objs h' !! i = Some e.
Proof. intros [Ho _] Hi. by eapply prefix_lookup_Some. Qed.

#[local] Instance heap_ext_preorder : PreOrder heap_ext.
Proof.
  split.
  - by intros h.
  - intros h1 h2 h3 [? ?] [? ?]. split; by etrans.
Qed.

Lemma alloc_ext e h : heap_ext h (mkHeap (objs h ++ [e]) (maps h)).
Proof. split; simpl; [by apply prefix_app_r | done]. Qed.

Lemma alloc_map_ext m h : heap_ext h (mkHeap (objs h) (maps h ++ [m])).
Proof. split; simpl; [done | by apply prefix_app_r]. Qed.

Lemma lookup_fresh {A} (l : list A) x : (l ++ [x]) !! length l = Some x.
Proof. by apply list_lookup_middle. Qed.

(** ** Copying one map into another *)

Lemma assign_all_spec entries i m h :
  maps h !! i = Some m →
  assign_all (Some i) entries h
  = Ret (tt, mkHeap (objs h) (<[i := merge_entries m entries]> (maps h))).
Proof.
  revert m h. induction entries as [|[k v] entries IH]; intros m h Hm; simpl.
  - unfold ret. by rewrite list_insert_id, heap_eta.
  - unfold bind, map_assign. rewrite Hm.
    rewrite (IH (<[k:=v]> m)); simpl.
    + by rewrite list_insert_insert_eq.
    + apply list_lookup_insert_eq. by eapply lookup_lt_Some.
Qed.

Lemma merge_entries_list_to_map m entries :
  NoDup entries.*1 → merge_entries m entries = list_to_map entries ∪ m.
Proof.
  revert m. induction entries as [|[k v] entries IH]; intros m Hnd; simpl.
  - by rewrite (left_id_L ∅ (∪)).
  - inversion_clear Hnd as [|?? Hk Hnd'].
    unfold merge_entries in *. simpl. rewrite IH by done.
    rewrite <-insert_union_l. symmetry. apply insert_union_r.
    by apply not_elem_of_list_to_map_1.
Qed.

Lemma merge_entries_range m f : merge_entries m (range f) = f ∪ m.
Proof.
  assert (NoDup (range f).*1) as Hnd.
  { rewrite (range_perm f). apply NoDup_fst_map_to_list. }
  rewrite merge_entries_list_to_map by done.
  f_equal. rewrite <-(list_to_map_to_list f) at 2.
  by apply list_to_map_proper.
Qed.

Lemma insert_fresh {A} (l : list A) x y : <[length l := y]> (l ++ [x]) = l ++ [y].
Proof. rewrite insert_app_r_alt by done. by rewrite Nat.sub_diag. Qed.

(** ** What each operation of error.go and grpc.go returns and stores *)

Lemma New_spec service code message h :
  New service code message h
  = Ret (Some (length (objs h)),
         mkHeap (objs h ++ [mkAppError service code message None error_nil 0 ""]) (maps h)).
Proof. reflexivity. Qed.

Lemma Wrap_spec err t tv h :
  err ≠ error_nil → objs h !! t = Some tv →
  Wrap err (Some t) h
  = Ret (Some (length (objs h)), mkHeap (objs h ++ [set_cause tv err]) (maps h)).
Proof.
  intros Herr Ht. unfold Wrap.
  destruct err; [done| |]; unfold bind; by rewrite (load_lookup _ _ _ Ht).
Qed.

Lemma WithFields_spec e ev fields h :
  objs h !! e = Some ev →
  WithFields (Some e) fields h
  = Ret (Some (length (objs h)), mkHeap (objs h ++ [set_Fields ev fields]) (maps h)).
Proof. intros He. unfold WithFields, bind. by rewrite (load_lookup _ _ _ He). Qed.

Lemma WithGRPCCode_spec e ev code h :
  objs h !! e = Some ev →
  WithGRPCCode (Some e) code h
  = Ret (Some (length (objs h)), mkHeap (objs h ++ [set_grpcCode ev (uint32 code)]) (maps h)).
Proof. intros He. unfold WithGRPCCode, bind. by rewrite (load_lookup _ _ _ He). Qed.

Lemma AddFields_empty e fields h :
  fields_of h fields = Some ∅ → AddFields e fields h = Ret (e, h).
Proof.
  intros Hf. unfold AddFields, bind. rewrite (read_map_fields_of _ _ _ Hf).
  by rewrite decide_True by apply map_size_empty.
Qed.

Lemma AddFields_spec e ev fields f ef h :
  objs h !! e = Some ev →
  fields_of h (Fields ev) = Some ef →
  fields_of h fields = Some f → f ≠ ∅ →
  AddFields (Some e) fields h
  = Ret (Some (length (objs h)),
         mkHeap (objs h ++ [set_Fields ev (Some (length (maps h)))])
                (maps h ++ [f ∪ ef])).
Proof.
  intros He Hef Hf Hne. unfold AddFields, bind.
  rewrite (read_map_fields_of _ _ _ Hf).
  rewrite decide_False by by rewrite map_size_empty_iff.
  rewrite (load_lookup _ _ _ He), (read_map_fields_of _ _ _ Hef).
  unfold alloc_map.
  rewrite (assign_all_spec _ _ ∅) by apply lookup_fresh. simpl.
  rewrite insert_fresh.
  rewrite (assign_all_spec _ _ (merge_entries ∅ (range ef))) by apply lookup_fresh.
  simpl. rewrite insert_fresh, !merge_entries_range.
  by rewrite (right_id_L ∅ (∪)).
Qed.

Lemma WithField_spec e ev key value ef h :
  objs h !! e = Some ev →
  fields_of h (Fields ev) = Some ef →
  WithField (Some e) key value h
  = Ret (Some (length (objs h)),
         mkHeap (objs h ++ [set_Fields ev (Some (S (length (maps h))))])
                (maps h ++ [{[ key := value ]}; <[key := value]> ef])).
Proof.
  intros He Hef. unfold WithField, bind, alloc_map.
  erewrite AddFields_spec; simpl.
  - rewrite length_app, Nat.add_1_r, <-app_assoc. simpl.
    by rewrite insert_union_singleton_l.
  - done.
  - eapply fields_of_ext; [apply alloc_map_ext | done].
  - apply lookup_fresh.
  - apply map_non_empty_singleton.
Qed.

(** ** [Is]: the subset test *)

Lemma fields_match_spec ef entries :
  fields_match ef entries = true ↔ ∀ k v, (k, v) ∈ entries → ef !! k = Some v.
Proof.
  induction entries as [|[k v] entries IH]; simpl.
  - split; [|done]. intros _ k v Hin. by apply elem_of_nil in Hin.
  - destruct (ef !! k) as [v'|] eqn:Hk.
    + destruct (decide (v' ≠ v)) as [Hne|Heq].
      * split; [done|]. intros H. specialize (H k v (list_elem_of_here _ _)). congruence.
      * apply dec_stable in Heq as ->. rewrite IH. split.
        -- intros H k' v' [[= -> ->]|Hin]%elem_of_cons; [done | by apply H].
        -- intros H k' v' Hin. apply H. by right.
    + split; [done|]. intros H. specialize (H k v (list_elem_of_here _ _)). congruence.
Qed.

Lemma fields_match_range ef tf :
  fields_match ef (range tf) = bool_decide (map_Forall (λ k v, ef !! k = Some v) tf).
Proof.
  apply eq_true_iff_eq. rewrite fields_match_spec, bool_decide_eq_true.
  unfold map_Forall. split.
  - intros H k v Hk. apply H. rewrite (range_perm tf). by apply elem_of_map_to_list.
  - intros H k v Hin. apply H. rewrite (range_perm tf) in Hin.
    by apply elem_of_map_to_list in Hin.
Qed.

Lemma Is_spec e ev t tv ef tf h :
  objs h !! e = Some ev → objs h !! t = Some tv →
  fields_of h (Fields ev) = Some ef → fields_of h (Fields tv) = Some tf →
  Is (Some e) (error_app (Some t)) h
  = Ret (bool_decide (Service ev = Service tv ∧ Code ev = Code tv ∧
                      map_Forall (λ k v, ef !! k = Some v) tf), h).
Proof.
  intros He Ht Hef Htf. unfold Is, bind.
  rewrite (load_lookup _ _ _ He), (load_lookup _ _ _ Ht).
  destruct (decide _) as [Hne|Heq].
  - unfold ret. rewrite bool_decide_eq_false_2; [done|]. intros (? & ? & _). tauto.
  - destruct (decide (Service ev = Service tv)) as [Hs|Hs]; [|exfalso; apply Heq; by left].
    destruct (decide (Code ev = Code tv)) as [Hc|Hc]; [|exfalso; apply Heq; by right].
    rewrite (read_map_fields_of _ _ _ Htf), (read_map_fields_of _ _ _ Hef).
    unfold ret. rewrite fields_match_range. do 2 f_equal.
    apply bool_decide_ext. tauto.
Qed.

(** ** [Error]: the rendering *)

Lemma append_assoc (a b c : string) : (a +:+ b) +:+ c = a +:+ b +:+ c.
Proof.
  induction a as [|x a IH]; [done|].
  change (String x ((a +:+ b) +:+ c) = String x (a +:+ b +:+ c)). by f_equal.
Qed.

Lemma append_nil_r (a : string) : a +:+ "" = a.
Proof.
  induction a as [|x a IH]; [done|].
  change (String x (a +:+ "") = String x a). by f_equal.
Qed.

Lemma render_fields_prefix entries first a msg :
  render_fields entries first (a +:+ msg) = a +:+ render_fields entries first msg.
Proof.
  revert first msg. induction entries as [|[k v] entries IH]; intros first msg; simpl.
  - done.
  - destruct first; rewrite <-IH; by rewrite ?append_assoc.
Qed.

Lemma Error_fuel_S fuel e ev fs h :
  objs h !! e = Some ev → fields_of h (Fields ev) = Some fs →
  Error_fuel (S fuel) (Some e) h
  = match cause ev with
    | error_nil => Ret (head_text ev fs, h)
    | error_app c =>
        match Error_fuel fuel c h with
        | Ret (s, h') => Ret (head_text ev fs +:+ ": " +:+ s, h')
        | Panic => Panic
        | OutOfFuel => OutOfFuel
        end
    | error_other text => Ret (head_text ev fs +:+ ": " +:+ text, h)
    end.
Proof.
  intros He Hfs. simpl. unfold bind.
  rewrite (load_lookup _ _ _ He), (read_map_fields_of _ _ _ Hfs).
  assert ((if decide (size fs = 0%nat)
           then "[" +:+ Service ev +:+ ":" +:+ Code ev +:+ "] " +:+ Message ev
           else render_fields (range fs) true
                  (("[" +:+ Service ev +:+ ":" +:+ Code ev +:+ "] " +:+ Message ev)
                   +:+ " [fields:{") +:+ "}]") = head_text ev fs) as ->.
  { unfold head_text, fields_text. destruct (decide _).
    - by rewrite append_nil_r.
    - rewrite render_fields_prefix. simpl. by rewrite !append_assoc. }
  by destruct (cause ev).
Qed.

Lemma Error_fuel_nil fuel h : Error_fuel (S fuel) None h = Panic.
Proof. reflexivity. Qed.

Lemma Error_fuel_dangling fuel e h :
  objs h !! e = None → Error_fuel (S fuel) (Some e) h = Panic.
Proof. intros He. simpl. unfold bind, load. by rewrite He. Qed.

Lemma Error_fuel_no_fields fuel e ev h :
  objs h !! e = Some ev → fields_of h (Fields ev) = None →
  Error_fuel (S fuel) (Some e) h = Panic.
Proof.
  intros He Hfs. simpl. unfold bind. rewrite (load_lookup _ _ _ He).
  unfold read_map. destruct (Fields ev) as [i|]; simpl in Hfs; [by rewrite Hfs | done].
Qed.

(** [Error] only reads the store. *)
Lemma Error_fuel_heap fuel e s h h' : Error_fuel fuel e h = Ret (s, h') → h' = h.
Proof.
  revert e s h'. induction fuel as [|fuel IH]; intros e s h'; [done|].
  destruct e as [e|]; [|done].
  destruct (objs h !! e) as [ev|] eqn:He; [|by rewrite Error_fuel_dangling].
  destruct (fields_of h (Fields ev)) as [fs|] eqn:Hfs;
    [|by erewrite Error_fuel_no_fields].
  rewrite (Error_fuel_S _ _ _ _ _ He Hfs).
  destruct (cause ev) as [|c|text]; [congruence| |congruence].
  destruct (Error_fuel fuel c h) as [[s' h'']| |] eqn:Hc; [|done..].
  apply IH in Hc as ->. congruence.
Qed.

(** ** Stores without a cycle *)

Lemma causes_below_lookup n l i e :
  causes_below n l = true → l !! i = Some e → cause_below (n + i) (cause e) = true.
Proof.
  revert n i. induction l as [|x l IH]; intros n i; [done|]. simpl.
  intros [Hx Hl]%andb_true_iff. destruct i as [|i]; simpl.
  - intros [= ->]. by rewrite Nat.add_0_r.
  - intros Hi. rewrite <-Nat.add_succ_comm. by apply IH.
Qed.

Lemma causes_below_app n l1 l2 :
  causes_below n (l1 ++ l2) = causes_below n l1 && causes_below (n + length l1) l2.
Proof.
  revert n. induction l1 as [|x l1 IH]; intros n; simpl.
  - by rewrite Nat.add_0_r.
  - by rewrite IH, <-Nat.add_succ_comm, andb_assoc.
Qed.

Lemma acyclic_lookup h i e j :
  acyclic h → objs h !! i = Some e → cause e = error_app (Some j) → (j < i)%nat.
Proof.
  intros Hh Hi Hc. pose proof (causes_below_lookup _ _ _ _ Hh Hi) as H.
  rewrite Hc in H. simpl in H. by apply bool_decide_eq_true in H.
Qed.

Lemma acyclic_alloc h e ms :
  acyclic h → cause_below (length (objs h)) (cause e) = true →
  acyclic (mkHeap (objs h ++ [e]) ms).
Proof.
  unfold acyclic. simpl. intros Hh He.
  by rewrite causes_below_app, Hh; simpl; rewrite He.
Qed.

Lemma cause_below_mono i j c : (i ≤ j)%nat → cause_below i c = true → cause_below j c = true.
Proof.
  destruct c as [|[k|]|]; simpl; try done.
  rewrite !bool_decide_eq_true. lia.
Qed.

(** A copy of a struct of the store may be added to it. *)
Lemma acyclic_copy h i ev f ms :
  acyclic h → objs h !! i = Some ev → cause (f ev) = cause ev →
  acyclic (mkHeap (objs h ++ [f ev]) ms).
Proof.
  intros Hh Hi Hf. apply acyclic_alloc; [done|]. rewrite Hf.
  pose proof (causes_below_lookup _ _ _ _ Hh Hi) as H. simpl in H.
  eapply cause_below_mono; [|done]. apply lookup_lt_Some in Hi. lia.
Qed.

(** With fuel beyond the index of the struct, the walk of an acyclic store
    never stops for lack of fuel, and its result does not depend on the
    fuel. *)
Lemma Error_fuel_stable h :
  acyclic h →
  ∀ e fuel1 fuel2, (e + 1 < fuel1)%nat → (e + 1 < fuel2)%nat →
    Error_fuel fuel1 (Some e) h = Error_fuel fuel2 (Some e) h
    ∧ Error_fuel fuel1 (Some e) h ≠ OutOfFuel.
Proof.
  intros Hh e. induction e as [e IH] using lt_wf_ind. intros fuel1 fuel2 H1 H2.
  destruct fuel1 as [|fuel1]; [lia|]. destruct fuel2 as [|fuel2]; [lia|].
  destruct (objs h !! e) as [ev|] eqn:He; [|by rewrite !Error_fuel_dangling].
  destruct (fields_of h (Fields ev)) as [fs|] eqn:Hfs;
    [|by rewrite !(Error_fuel_no_fields _ _ _ _ He Hfs)].
  rewrite !(Error_fuel_S _ _ _ _ _ He Hfs).
  destruct (cause ev) as [|[c|]|text] eqn:Hc; [done| |..|done].
  - pose proof (acyclic_lookup _ _ _ _ Hh He Hc) as Hlt.
    destruct (IH c Hlt fuel1 fuel2) as [-> Hne]; [lia..|].
    split; [done|]. by destruct (Error_fuel fuel2 (Some c) h) as [[s h']| |].
  - destruct fuel1 as [|fuel1]; [lia|]. destruct fuel2 as [|fuel2]; [lia|].
    by rewrite !Error_fuel_nil.
Qed.

Lemma render_fields_false entries msg :
  render_fields entries false msg
  = msg +:+ (if entries is [] then "" else ", " +:+ join ", " (entry_text <$> entries)).
Proof.
  revert msg. induction entries as [|[k v] entries IH]; intros msg.
  - simpl. by rewrite append_nil_r.
  - change (render_fields ((k, v) :: entries) false msg)
      with (render_fields entries false ((msg +:+ ", ") +:+ Quote k +:+ ":" +:+ Quote v)).
    rewrite IH. destruct entries as [|kv entries].
    + rewrite append_nil_r.
      change (join ", " (entry_text <$> [(k, v)])) with (Quote k +:+ ":" +:+ Quote v).
      by rewrite !append_assoc.
    + rewrite !fmap_cons.
      change (join ", " (entry_text (k, v) :: entry_text kv :: (entry_text <$> entries)))
        with (entry_text (k, v) +:+ ", " +:+
              join ", " (entry_text kv :: (entry_text <$> entries))).
      change (entry_text (k, v)) with (Quote k +:+ ":" +:+ Quote v).
      by rewrite !append_assoc.
Qed.

Lemma render_fields_join entries msg :
  render_fields entries true msg = msg +:+ join ", " (entry_text <$> entries).
Proof.
  destruct entries as [|[k v] entries].
  - simpl. by rewrite append_nil_r.
  - change (render_fields ((k, v) :: entries) true msg)
      with (render_fields entries false (msg +:+ Quote k +:+ ":" +:+ Quote v)).
    rewrite render_fields_false. destruct entries as [|kv entries].
    + rewrite append_nil_r. by unfold entry_text.
    + rewrite !fmap_cons.
      change (join ", " (entry_text (k, v) :: entry_text kv :: (entry_text <$> entries)))
        with (entry_text (k, v) +:+ ", " +:+
              join ", " (entry_text kv :: (entry_text <$> entries))).
      change (entry_text (k, v)) with (Quote k +:+ ":" +:+ Quote v).
      by rewrite !append_assoc.
Qed.

Lemma Error_no_cause e ev fs h :
  objs h !! e = Some ev → fields_of h (Fields ev) = Some fs → cause ev = error_nil →
  Error (Some e) h = Ret (head_text ev fs, h).
Proof.
  intros He Hfs Hc. unfold Error. by rewrite (Error_fuel_S _ _ _ _ _ He Hfs), Hc.
Qed.

Lemma range_singleton k v : range {[ k := v ]} = [(k, v)].
Proof.
  apply Permutation_singleton_r. by rewrite (range_perm _), map_to_list_singleton.
Qed.

(** C6: [Error] renders a value without fields and without cause as
    [[service:code] message], as in [New("svc","C1","msg")]; non-empty
    fields are appended as [ [fields:{"k1":"v1", ...}]] (one quoted pair per
    entry, separated by a comma and a blank, in the order of the iteration),
    a cause as a colon, a blank and the rendering of the cause; and the
    value [New("user-service","US-404","user not found").WithField("id","456")]
    renders with its single field. *)
Theorem Error_renders :
  (∀ h, ∃ h', (p <- New "svc" "C1" "msg" ;; Error p) h = Ret ("[svc:C1] msg", h'))
  ∧ (∀ h e ev, objs h !! e = Some ev → fields_of h (Fields ev) = Some ∅ →
       cause ev = error_nil →
       Error (Some e) h
       = Ret ("[" +:+ Service ev +:+ ":" +:+ Code ev +:+ "] " +:+ Message ev, h))
  ∧ (∀ h e ev fs, objs h !! e = Some ev → fields_of h (Fields ev) = Some fs →
       fs ≠ ∅ → cause ev = error_nil →
       Error (Some e) h
       = Ret ("[" +:+ Service ev +:+ ":" +:+ Code ev +:+ "] " +:+ Message ev +:+
              " [fields:{" +:+ join ", " (entry_text <$> range fs) +:+ "}]", h))
  ∧ (∀ h e ev fs c s, acyclic h → objs h !! e = Some ev →
       fields_of h (Fields ev) = Some fs →
       cause ev = c → c ≠ error_nil → error_Error c h = Ret (s, h) →
       Error (Some e) h = Ret (head_text ev fs +:+ ": " +:+ s, h))
  ∧ (∀ h, ∃ h',
       (p <- New "user-service" "US-404" "user not found" ;;
        e <- WithField p "id" "456" ;;
        Error e) h
       = Ret ("[user-service:US-404] user not found [fields:{" +:+ dq +:+ "id" +:+ dq
              +:+ ":" +:+ dq +:+ "456" +:+ dq +:+ "}]", h')).
Proof.
  split; [|split; [|split; [|split]]].
  - intros h. eexists. unfold bind. rewrite New_spec.
    erewrite Error_no_cause; [|apply lookup_fresh|done..]. reflexivity.
  - intros h e ev He Hfs Hc. rewrite (Error_no_cause _ _ _ _ He Hfs Hc).
    unfold head_text, fields_text. rewrite decide_True by apply map_size_empty.
    by rewrite append_nil_r.
  - intros h e ev fs He Hfs Hne Hc. rewrite (Error_no_cause _ _ _ _ He Hfs Hc).
    unfold head_text, fields_text.
    rewrite decide_False by by rewrite map_size_empty_iff.
    by rewrite render_fields_join, !append_assoc.
  - intros h e ev fs c s Hh He Hfs Hc Hne Hs. unfold Error.
    rewrite (Error_fuel_S _ _ _ _ _ He Hfs), Hc.
    destruct c as [|[c|]|text]; [done| | |].
    + simpl in Hs. unfold Error in Hs.
      pose proof (acyclic_lookup _ _ _ _ Hh He Hc) as Hlt.
      pose proof (lookup_lt_Some _ _ _ He) as Hlen.
      destruct (Error_fuel_stable h Hh c (length (objs h)) (S (length (objs h))))
        as [-> _]; [lia..|].
      by rewrite Hs.
    + simpl in Hs. unfold Error in Hs. by rewrite Error_fuel_nil in Hs.
    + simpl in Hs. unfold ret in Hs. by injection Hs as ->.
  - intros h. eexists. unfold bind. rewrite New_spec.
    erewrite WithField_spec; [|apply lookup_fresh|done]. simpl.
    erewrite Error_no_cause; [|apply lookup_fresh| |done].
    2:{ simpl. rewrite (lookup_app_r _ _ (S (length (maps h)))) by lia.
        by replace (S (length (maps h)) - length (maps h))%nat with 1%nat by lia. }
    unfold head_text, fields_text. rewrite insert_empty, map_size_singleton.
    rewrite range_singleton. reflexivity.
Qed.

(** In a store without a cycle [Error] always comes to an end. *)
Lemma Error_total e h : acyclic h → Error e h ≠ OutOfFuel.
Proof.
  intros Hh. unfold Error. destruct e as [e|]; [|done].
  destruct (objs h !! e) as [ev|] eqn:He; [|by rewrite Error_fuel_dangling].
  apply lookup_lt_Some in He.
  by destruct (Error_fuel_stable h Hh e (S (length (objs h))) (S (length (objs h))));
    [lia..|].
Qed.

(** C5: [Wrap] of the nil error returns nil, whatever the template (the
    store is left as it was); [Wrap] of any other error returns a new struct
    whose cause is that error and whose other components are the template's,
    and the template and every other struct and map stay as they were. *)
Theorem Wrap_nil_and_copy :
  (∀ template h, Wrap error_nil template h = Ret (None, h))
  ∧ (∀ err t tv h, err ≠ error_nil → objs h !! t = Some tv →
       ∃ r rv h', Wrap err (Some t) h = Ret (Some r, h')
         ∧ objs h !! r = None
         ∧ objs h' !! r = Some rv
         ∧ cause rv = err
         ∧ Service rv = Service tv ∧ Code rv = Code tv ∧ Message rv = Message tv
         ∧ Fields rv = Fields tv ∧ grpcCode rv = grpcCode tv
         ∧ traceID rv = traceID tv
         ∧ objs h' !! t = Some tv
         ∧ heap_ext h h').
Proof.
  split; [done|]. intros err t tv h Herr Ht.
  exists (length (objs h)), (set_cause tv err). eexists.
  rewrite (Wrap_spec _ _ _ _ Herr Ht).
  split; [done|]. split; [by apply lookup_ge_None_2|].
  split; [apply lookup_fresh|]. do 7 (split; [done|]).
  split; [|apply alloc_ext].
  by apply lookup_app_l_Some.
Qed.

(** C9: [AddFields] with a non-empty argument returns a new struct whose
    field map is a new map holding the union of the receiver's fields and
    the argument, the argument winning on a shared key, and whose other
    components are the receiver's; the receiver, its field map, the argument
    map and every other struct and map stay as they were. *)
Theorem AddFields_leaves_receiver e ev fields f ef h :
  objs h !! e = Some ev →
  fields_of h (Fields ev) = Some ef →
  fields_of h fields = Some f → f ≠ ∅ →
  ∃ r rv m h', AddFields (Some e) fields h = Ret (Some r, h')
    ∧ objs h' !! e = Some ev
    ∧ fields_of h' (Fields ev) = Some ef
    ∧ fields_of h' fields = Some f
    ∧ heap_ext h h'
    ∧ objs h !! r = None ∧ objs h' !! r = Some rv
    ∧ Fields rv = Some m
    ∧ Service rv = Service ev ∧ Code rv = Code ev ∧ Message rv = Message ev
    ∧ cause rv = cause ev ∧ grpcCode rv = grpcCode ev ∧ traceID rv = traceID ev
    ∧ maps h !! m = None ∧ maps h' !! m = Some (f ∪ ef)
    ∧ fields_of h' (Fields rv) = Some (f ∪ ef)
    ∧ ∀ k, (f ∪ ef) !! k = match f !! k with Some v => Some v | None => ef !! k end.
Proof.
  intros He Hef Hf Hne.
  exists (length (objs h)), (set_Fields ev (Some (length (maps h)))), (length (maps h)).
  eexists. rewrite (AddFields_spec _ _ _ _ _ _ He Hef Hf Hne).
  assert (heap_ext h (mkHeap (objs h ++ [set_Fields ev (Some (length (maps h)))])
                             (maps h ++ [f ∪ ef]))) as Hext.
  { split; by apply prefix_app_r. }
  split; [done|]. split; [by eapply lookup_ext|].
  split; [by eapply fields_of_ext|]. split; [by eapply fields_of_ext|].
  split; [done|]. split; [by apply lookup_ge_None_2|].
  split; [apply lookup_fresh|]. do 7 (split; [done|]).
  split; [by apply lookup_ge_None_2|]. split; [apply lookup_fresh|].
  split; [apply lookup_fresh|].
  intros k. rewrite lookup_union. by destruct (f !! k), (ef !! k).
Qed.

(** C3, as the code has it: with [e = template.WithField(k, v)] it is
    [e.Is(template)] that returns true, whenever the template holds no other
    value under [k] (so for every template without the key); and
    [template.Is(e)] returns true exactly when the template already holds
    [v] under [k].  [receiver.Is(candidate)] is the subset test: true exactly
    when service and code are equal and every field of the candidate is
    present with an equal value on the receiver; a candidate that is not an
    [*AppError] is refused. *)
Theorem Is_enriched_matches_template :
  (∀ t tv tf key value h, objs h !! t = Some tv → fields_of h (Fields tv) = Some tf →
     ∃ e h', WithField (Some t) key value h = Ret (Some e, h')
       ∧ Is (Some e) (error_app (Some t)) h'
         = Ret (bool_decide (tf !! key = None ∨ tf !! key = Some value), h')
       ∧ Is (Some t) (error_app (Some e)) h'
         = Ret (bool_decide (tf !! key = Some value), h'))
  ∧ (∀ r rv rf c cv cf h,
       objs h !! r = Some rv → objs h !! c = Some cv →
       fields_of h (Fields rv) = Some rf → fields_of h (Fields cv) = Some cf →
       ∃ b, Is (Some r) (error_app (Some c)) h = Ret (b, h)
         ∧ (b = true ↔ Service rv = Service cv ∧ Code rv = Code cv ∧
                        ∀ k v, cf !! k = Some v → rf !! k = Some v))
  ∧ (∀ r text h, Is r (error_other text) h = Ret (false, h)
                 ∧ Is r error_nil h = Ret (false, h)).
Proof.
  split; [|split; [|done]].
  - intros t tv tf key value h Ht Htf.
    exists (length (objs h)),
      (mkHeap (objs h ++ [set_Fields tv (Some (S (length (maps h))))])
              (maps h ++ [{[ key := value ]}; <[key := value]> tf])).
    rewrite (WithField_spec _ _ _ _ _ _ Ht Htf).
    set (h' := mkHeap _ _).
    assert (heap_ext h h') as Hext.
    { split; by apply prefix_app_r. }
    assert (objs h' !! length (objs h)
            = Some (set_Fields tv (Some (S (length (maps h)))))) as He
      by apply lookup_fresh.
    assert (fields_of h' (Some (S (length (maps h)))) = Some (<[key:=value]> tf)) as Hef.
    { simpl. rewrite lookup_app_r by lia.
      by replace (S (length (maps h)) - length (maps h))%nat with 1%nat by lia. }
    pose proof (lookup_ext _ _ _ _ Hext Ht) as Ht'.
    pose proof (fields_of_ext _ _ _ _ Hext Htf) as Htf'.
    split; [done|]. split.
    + rewrite (Is_spec _ _ _ _ _ _ _ He Ht' Hef Htf'). do 2 f_equal.
      apply bool_decide_ext. simpl. unfold map_Forall. split.
      * intros (_ & _ & H). destruct (tf !! key) as [v0|] eqn:Hk; [|by left].
        right. specialize (H _ _ Hk). rewrite lookup_insert_eq in H. congruence.
      * intros H. split; [done|]. split; [done|]. intros k v Hk.
        destruct (decide (key = k)) as [->|Hne].
        -- rewrite lookup_insert_eq. destruct H as [H|H]; congruence.
        -- by rewrite lookup_insert_ne.
    + rewrite (Is_spec _ _ _ _ _ _ _ Ht' He Htf' Hef). do 2 f_equal.
      apply bool_decide_ext. simpl. unfold map_Forall. split.
      * intros (_ & _ & H). apply H. apply lookup_insert_eq.
      * intros H. split; [done|]. split; [done|]. intros k v.
        destruct (decide (key = k)) as [->|Hne].
        -- rewrite lookup_insert_eq. congruence.
        -- by rewrite lookup_insert_ne.
  - intros r rv rf c cv cf h Hr Hc Hrf Hcf. eexists.
    rewrite (Is_spec _ _ _ _ _ _ _ Hr Hc Hrf Hcf). split; [done|].
    by rewrite bool_decide_eq_true.
Qed.

(** ** grpc.go: the codec *)

Lemma uint32_int32 x : 0 ≤ x < 2 ^ 32 → uint32 (int32 x) = x.
Proof.
  intros Hx. unfold uint32, int32.
  rewrite Zminus_mod_idemp_l.
  replace (x + 2 ^ 31 - 2 ^ 31) with x by lia.
  by apply Z.mod_small.
Qed.

Lemma uint32_idemp x : uint32 (uint32 x) = uint32 x.
Proof. unfold uint32. by rewrite Z.mod_mod. Qed.

Lemma first_ErrorDetail_None details :
  (∀ detail, Any_ErrorDetail detail ∉ details) → first_ErrorDetail details = None.
Proof.
  induction details as [|[d|] details IH]; intros H; simpl.
  - done.
  - exfalso. apply (H d). by left.
  - apply IH. intros d Hd. apply (H d). by right.
Qed.

(** The status [GRPCStatus] builds: the code the struct carries, or Unknown
    for the zero code, with the detail attached when it marshals. *)
Lemma GRPCStatus_spec e ev fs h :
  objs h !! e = Some ev → fields_of h (Fields ev) = Some fs →
  0 ≤ grpcCode ev < 2 ^ 32 →
  GRPCStatus (Some e) h
  = Ret (let code := if decide (grpcCode ev = codes_OK) then codes_Unknown
                     else grpcCode ev in
         let detail := mkErrorDetail (Service ev) (Code ev) (Message ev) fs in
         if proto_marshals detail
         then mkStatus (int32 code) (Message ev) [Any_ErrorDetail detail]
         else mkStatus (int32 codes_Internal) "failed to marshal error" [], h).
Proof.
  intros He Hfs Hc. unfold GRPCStatus, bind.
  rewrite (load_lookup _ _ _ He), (read_map_fields_of _ _ _ Hfs).
  unfold Status_WithDetails, Status_Code, status_New. cbn [st_code st_message st_details].
  set (code := if decide (grpcCode ev = codes_OK) then codes_Unknown else grpcCode ev).
  assert (0 ≤ code < 2 ^ 32 ∧ code ≠ codes_OK) as [Hr Hne].
  { unfold code, codes_OK, codes_Unknown in *. destruct (decide _); lia. }
  rewrite (uint32_int32 _ Hr), decide_False by done.
  by destruct (proto_marshals _).
Qed.

(** [GRPCStatus] returns a status and leaves the store as it was. *)
Lemma GRPCStatus_returns e ev fs h :
  objs h !! e = Some ev → fields_of h (Fields ev) = Some fs →
  ∃ st, GRPCStatus (Some e) h = Ret (st, h).
Proof.
  intros He Hfs. unfold GRPCStatus, bind.
  rewrite (load_lookup _ _ _ He), (read_map_fields_of _ _ _ Hfs).
  destruct (Status_WithDetails _ _); by eexists.
Qed.

(** What [FromGRPCStatus] builds from a status that is not nil. *)
Lemma FromGRPCStatus_spec s h :
  FromGRPCStatus (Some s) h
  = match first_ErrorDetail (Status_Details s) with
    | Some detail =>
        if decide (pb_Fields detail = ∅)
        then Ret (Some (length (objs h)),
                  mkHeap (objs h ++ [mkAppError (pb_Service detail) (pb_Code detail)
                                       (pb_Message detail) None error_nil
                                       (Status_Code s) ""])
                         (maps h))
        else Ret (Some (length (objs h)),
                  mkHeap (objs h ++ [mkAppError (pb_Service detail) (pb_Code detail)
                                       (pb_Message detail) (Some (length (maps h)))
                                       error_nil (Status_Code s) ""])
                         (maps h ++ [pb_Fields detail]))
    | None =>
        Ret (Some (length (objs h)),
             mkHeap (objs h ++ [mkAppError "unknown" "00000" (Status_Message s)
                                  None error_nil (Status_Code s) ""])
                    (maps h))
    end.
Proof.
  unfold FromGRPCStatus. destruct (first_ErrorDetail _) as [detail|].
  - unfold bind, GetFields. unfold Status_Code at 1. rewrite uint32_idemp.
    by destruct (decide _).
  - unfold alloc. unfold Status_Code at 1. by rewrite uint32_idemp.
Qed.

(** C1: when the detail marshals, decoding the status of a value gives a
    new value with the same service, code, message and content of the
    fields; its gRPC code is the one of the value, except that the zero code
    (unset, which is also OK) comes back as Unknown. *)
Theorem GRPC_round_trip e ev fs h :
  objs h !! e = Some ev →
  fields_of h (Fields ev) = Some fs →
  0 ≤ grpcCode ev < 2 ^ 32 →
  proto_marshals (mkErrorDetail (Service ev) (Code ev) (Message ev) fs) = true →
  ∃ d dv h',
    (st <- GRPCStatus (Some e) ;; FromGRPCStatus (Some st)) h = Ret (Some d, h')
    ∧ objs h' !! d = Some dv
    ∧ Service dv = Service ev ∧ Code dv = Code ev ∧ Message dv = Message ev
    ∧ fields_of h' (Fields dv) = Some fs
    ∧ grpcCode dv = (if decide (grpcCode ev = 0) then codes_Unknown else grpcCode ev).
Proof.
  intros He Hfs Hc Hm. unfold bind.
  rewrite (GRPCStatus_spec _ _ _ _ He Hfs Hc). cbv zeta. rewrite Hm.
  rewrite FromGRPCStatus_spec. simpl.
  assert (Status_Code
            (mkStatus (int32 (if decide (grpcCode ev = codes_OK) then codes_Unknown
                              else grpcCode ev)) (Message ev)
               [Any_ErrorDetail (mkErrorDetail (Service ev) (Code ev) (Message ev) fs)])
          = if decide (grpcCode ev = 0) then codes_Unknown else grpcCode ev) as ->.
  { unfold Status_Code. simpl. apply uint32_int32.
    unfold codes_OK, codes_Unknown. destruct (decide _); lia. }
  destruct (decide (fs = ∅)) as [->|Hne].
  - eexists _, _, _. split; [done|]. split; [apply lookup_fresh|]. by simpl.
  - eexists _, _, _. split; [done|]. split; [apply lookup_fresh|]. simpl.
    repeat split; try done. apply lookup_fresh.
Qed.

(** C4: [FromGRPCStatus] always returns: nil for the nil status, and a new
    value for every other status; when the status carries no
    [pb.ErrorDetail], that value has service [unknown], code [00000], the
    message and the code of the status, no fields and no cause. *)
Theorem FromGRPCStatus_total :
  (∀ h, FromGRPCStatus None h = Ret (None, h))
  ∧ (∀ s h, ∃ d dv h', FromGRPCStatus (Some s) h = Ret (Some d, h')
       ∧ objs h !! d = None ∧ objs h' !! d = Some dv ∧ heap_ext h h')
  ∧ (∀ s h, (∀ detail, Any_ErrorDetail detail ∉ Status_Details s) →
       FromGRPCStatus (Some s) h
       = Ret (Some (length (objs h)),
              mkHeap (objs h ++ [mkAppError "unknown" "00000" (Status_Message s)
                                   None error_nil (Status_Code s) ""])
                     (maps h))).
Proof.
  split; [done|]. split.
  - intros s h. rewrite FromGRPCStatus_spec.
    destruct (first_ErrorDetail _) as [detail|]; [destruct (decide _)|];
      eexists _, _, _; (split; [done|]); (split; [by apply lookup_ge_None_2|]);
      (split; [apply lookup_fresh|]); split; simpl; try done; by apply prefix_app_r.
  - intros s h Hno. rewrite FromGRPCStatus_spec.
    by rewrite (first_ErrorDetail_None _ Hno).
Qed.

(** C10: a value that [FromGRPCStatus] returns has no cause, so [Unwrap] on
    it returns nil; in particular the value decoded from the status of any
    value, whatever its own cause and whether or not its detail marshalled. *)
Theorem decoded_cause_is_nil :
  (∀ s h, ∃ d h', FromGRPCStatus (Some s) h = Ret (Some d, h')
       ∧ Unwrap (Some d) h' = Ret (error_nil, h'))
  ∧ (∀ e ev fs h, objs h !! e = Some ev → fields_of h (Fields ev) = Some fs →
       ∃ d h', (st <- GRPCStatus (Some e) ;; FromGRPCStatus (Some st)) h
               = Ret (Some d, h')
         ∧ Unwrap (Some d) h' = Ret (error_nil, h')).
Proof.
  assert (∀ s h, ∃ d h', FromGRPCStatus (Some s) h = Ret (Some d, h')
            ∧ Unwrap (Some d) h' = Ret (error_nil, h')) as Hdec.
  { intros s h. rewrite FromGRPCStatus_spec.
    destruct (first_ErrorDetail _) as [detail|]; [destruct (decide _)|];
      eexists _, _; (split; [done|]); unfold Unwrap, bind;
      by erewrite load_lookup by apply lookup_fresh. }
  split; [done|].
  intros e ev fs h He Hfs. unfold bind.
  destruct (GRPCStatus_returns _ _ _ _ He Hfs) as [st ->]. apply Hdec.
Qed.

(** ** gateway.go: the serializer *)

(** [ToJSON] on a struct of the store: a trace id found in the context is
    written into the struct itself before the struct is marshalled. *)
Lemma ToJSON_AppError ctx e ev fs h :
  objs h !! e = Some ev → fields_of h (Fields ev) = Some fs →
  ToJSON ctx (error_app (Some e)) h
  = match Value_TraceIDKey ctx with
    | any_string tid =>
        Ret (bytes_json (alias_members ev fs tid),
             mkHeap (<[e := set_traceID ev tid]> (objs h)) (maps h))
    | _ => Ret (bytes_json (alias_members ev fs (traceID ev)), h)
    end.
Proof.
  intros He Hfs. unfold ToJSON, bind.
  destruct (Value_TraceIDKey ctx) as [|tid|].
  - unfold ret. by rewrite (load_lookup _ _ _ He), (read_map_fields_of _ _ _ Hfs).
  - unfold store. rewrite He.
    erewrite load_lookup; [|simpl; apply list_lookup_insert_eq; by eapply lookup_lt_Some].
    by rewrite (read_map_fields_of _ fs) by exact Hfs.
  - unfold ret. by rewrite (load_lookup _ _ _ He), (read_map_fields_of _ _ _ Hfs).
Qed.

Lemma omitempty_map_alt key m :
  omitempty_map key m = if decide (m = ∅) then [] else [(key, JStringMap m)].
Proof.
  unfold omitempty_map. destruct (decide (size m = 0%nat)) as [H|H].
  - apply map_size_empty_iff in H. by rewrite decide_True.
  - rewrite map_size_empty_iff in H. by rewrite decide_False.
Qed.

Lemma omitempty_string_key k key s : k ∈ (omitempty_string key s).*1 → k = key.
Proof.
  unfold omitempty_string. destruct (decide _); simpl.
  - by intros ?%elem_of_nil.
  - by intros ?%list_elem_of_singleton.
Qed.

(** The keys of the object, for a struct whose [traceID] field is empty. *)
Lemma ToJSON_members ctx e ev fs h :
  objs h !! e = Some ev → fields_of h (Fields ev) = Some fs → traceID ev = "" →
  ∃ members h', ToJSON ctx (error_app (Some e)) h = Ret (bytes_json members, h')
    ∧ ("message", JString (Message ev)) ∈ members
    ∧ (fs = ∅ → "fields" ∉ members.*1)
    ∧ (fs ≠ ∅ → ("fields", JStringMap fs) ∈ members)
    ∧ (∀ tid, Value_TraceIDKey ctx = any_string tid → tid ≠ "" →
         ("trace_id", JString tid) ∈ members)
    ∧ ((∀ tid, Value_TraceIDKey ctx ≠ any_string tid) → "trace_id" ∉ members.*1).
Proof.
  intros He Hfs Ht. rewrite (ToJSON_AppError _ _ _ _ _ He Hfs).
  assert (∀ tid, ("message", JString (Message ev)) ∈ alias_members ev fs tid
            ∧ (fs = ∅ → "fields" ∉ (alias_members ev fs tid).*1)
            ∧ (fs ≠ ∅ → ("fields", JStringMap fs) ∈ alias_members ev fs tid)
            ∧ (tid ≠ "" → ("trace_id", JString tid) ∈ alias_members ev fs tid)
            ∧ (tid = "" → "trace_id" ∉ (alias_members ev fs tid).*1)) as Hm.
  { intros tid. unfold alias_members. rewrite omitempty_map_alt.
    repeat split.
    - rewrite !elem_of_app, elem_of_cons. tauto.
    - intros ->. rewrite (decide_True (P:=(∅ : gmap string string) = ∅)) by done.
      rewrite !fmap_app, !elem_of_app.
      intros [H|[H|[H|[H|H]]]]; try apply omitempty_string_key in H; try done.
      + by apply list_elem_of_singleton in H.
      + by apply elem_of_nil in H.
    - intros Hne. rewrite (decide_False (P:=fs = ∅)) by done.
      rewrite !elem_of_app, !elem_of_cons. tauto.
    - intros Hne. unfold omitempty_string at 3.
      rewrite (decide_False (P:=tid = "")) by done.
      rewrite !elem_of_app, !elem_of_cons. tauto.
    - intros ->. unfold omitempty_string at 3.
      rewrite (decide_True (P:=EmptyString = "")) by done.
      rewrite !fmap_app, !elem_of_app.
      intros [H|[H|[H|[H|H]]]]; try apply omitempty_string_key in H; try done.
      + by apply list_elem_of_singleton in H.
      + destruct (decide _); [by apply elem_of_nil in H|].
        by apply list_elem_of_singleton in H.
      + by apply elem_of_nil in H. }
  destruct (Value_TraceIDKey ctx) as [|tid|] eqn:Hctx; eexists _, _; (split; [done|]).
  - destruct (Hm (traceID ev)) as (H1 & H2 & H3 & H4 & H5).
    repeat split; [done..| |]; [by intros tid [=]|]. intros _. by apply H5.
  - destruct (Hm tid) as (H1 & H2 & H3 & H4 & H5).
    repeat split; [done..| |].
    + by intros tid' [= <-].
    + intros H. by destruct (H tid).
  - destruct (Hm (traceID ev)) as (H1 & H2 & H3 & H4 & H5).
    repeat split; [done..| |]; [by intros tid [=]|]. intros _. by apply H5.
Qed.

(** C2, the code at the failing input: for a value made by [New], whose
    [traceID] field is empty, [ToJSON] with a context that carries the trace
    id [abc] returns with the [traceID] field of that very struct set to
    [abc]: the serializer writes the trace id into the existing value. *)
Theorem ToJSON_writes_trace_id_in_place :
  ∀ h, ∃ e h1 b h2,
    New "svc" "C1" "msg" h = Ret (Some e, h1)
    ∧ traceID <$> objs h1 !! e = Some ""
    ∧ ToJSON (mkContext (any_string "abc")) (error_app (Some e)) h1 = Ret (b, h2)
    ∧ traceID <$> objs h2 !! e = Some "abc".
Proof.
  intros h. eexists _, _, _, _. rewrite New_spec. split; [done|].
  split; [simpl; by rewrite lookup_fresh|].
  erewrite ToJSON_AppError; [|apply lookup_fresh|done]. simpl.
  split; [done|]. simpl. by rewrite insert_fresh, lookup_fresh.
Qed.

(** C7, the code at the failing input: after [ToJSON] has been called on a
    value with a context that carries the trace id [abc], a call on the same
    value with a context that carries no trace id still returns an object
    with the member [trace_id] equal to [abc]. *)
Theorem ToJSON_repeats_stale_trace_id :
  ∀ h, ∃ h',
    (e <- New "svc" "C1" "msg" ;;
     ToJSON (mkContext (any_string "abc")) (error_app e) ;;;
     ToJSON (mkContext any_nil) (error_app e)) h
    = Ret (bytes_json [("service", JString "svc"); ("code", JString "C1");
                       ("message", JString "msg"); ("trace_id", JString "abc")], h').
Proof.
  intros h. eexists. unfold bind at 1. rewrite New_spec. unfold bind.
  erewrite ToJSON_AppError; [|apply lookup_fresh|done].
  cbn [Value_TraceIDKey objs maps]. rewrite insert_fresh.
  erewrite ToJSON_AppError; [|apply lookup_fresh|done]. reflexivity.
Qed.

(** C8, the code at the failing input: [ToJSON] called with the nil error
    panics (it calls [Error] on the nil interface), and so it does with a
    nil [*AppError]; an error of a foreign type gives the minimal object
    around its text. *)
Theorem ToJSON_nil_error_panics :
  (∀ ctx h, ToJSON ctx error_nil h = Panic)
  ∧ (∀ ctx h, ToJSON ctx (error_app None) h = Panic)
  ∧ (∀ ctx text h,
       ToJSON ctx (error_other text) h
       = Ret (bytes_text ("{" +:+ dq +:+ "error" +:+ dq +:+ ":" +:+ dq +:+ text
                          +:+ dq +:+ "}"), h)).
Proof.
  split; [done|]. split; [|done].
  intros ctx h. unfold ToJSON, bind. by destruct (Value_TraceIDKey ctx).
Qed.

(** ** The frame: which operations leave the values of the store alone *)

Lemma load_inv p e h h' :
  load p h = Ret (e, h') → h' = h ∧ ∃ i, p = Some i ∧ objs h !! i = Some e.
Proof.
  unfold load. destruct p as [i|]; [|done].
  destruct (objs h !! i) as [e'|] eqn:Hi; [|done].
  intros [= -> ->]. eauto.
Qed.

Lemma read_map_inv r m h h' :
  read_map r h = Ret (m, h') → h' = h ∧ fields_of h r = Some m.
Proof.
  unfold read_map. destruct r as [i|]; simpl.
  - destruct (maps h !! i) as [m'|]; [|done]. by intros [= -> ->].
  - by intros [= -> ->].
Qed.

Lemma AddFields_inv e fields r h h' :
  AddFields e fields h = Ret (r, h') →
  (r = e ∧ h' = h) ∨
  (∃ i ev ef f, e = Some i ∧ objs h !! i = Some ev ∧ r = Some (length (objs h))
     ∧ fields_of h (Fields ev) = Some ef ∧ fields_of h fields = Some f
     ∧ h' = mkHeap (objs h ++ [set_Fields ev (Some (length (maps h)))])
                   (maps h ++ [f ∪ ef])).
Proof.
  intros H.
  destruct (fields_of h fields) as [f|] eqn:Hf.
  2:{ unfold AddFields, bind in H.
      destruct (read_map fields h) as [[f h1]| |] eqn:Hr; [|done..].
      apply read_map_inv in Hr as [_ Hr]. congruence. }
  destruct (decide (f = ∅)) as [->|Hne].
  { rewrite (AddFields_empty _ _ _ Hf) in H. injection H as <- <-. by left. }
  right. unfold AddFields, bind in H. rewrite (read_map_fields_of _ _ _ Hf) in H.
  rewrite decide_False in H by by rewrite map_size_empty_iff.
  destruct (load e h) as [[ev h1]| |] eqn:Hl; [|done..].
  apply load_inv in Hl as [-> (i & -> & Hi)].
  destruct (read_map (Fields ev) h) as [[ef h1]| |] eqn:Hr; [|done..].
  apply read_map_inv in Hr as [-> Hef].
  pose proof (AddFields_spec _ _ _ _ _ _ Hi Hef Hf Hne) as Hs.
  unfold AddFields, bind in Hs. rewrite (read_map_fields_of _ _ _ Hf) in Hs.
  rewrite decide_False in Hs by by rewrite map_size_empty_iff.
  rewrite (load_lookup _ _ _ Hi), (read_map_fields_of _ _ _ Hef) in Hs.
  rewrite Hs in H. injection H as <- <-. by eexists _, _, _, _.
Qed.

(** X14: Every operation of error.go and grpc.go returns with each struct and
    each map of the store as it was before the call. *)
Theorem operations_keep_store :
  (∀ service code message p h h',
     New service code message h = Ret (p, h') → heap_ext h h')
  ∧ (∀ err appErr p h h', Wrap err appErr h = Ret (p, h') → heap_ext h h')
  ∧ (∀ e fields p h h', AddFields e fields h = Ret (p, h') → heap_ext h h')
  ∧ (∀ e key value p h h', WithField e key value h = Ret (p, h') → heap_ext h h')
  ∧ (∀ e fields p h h', WithFields e fields h = Ret (p, h') → heap_ext h h')
  ∧ (∀ e code p h h', WithGRPCCode e code h = Ret (p, h') → heap_ext h h')
  ∧ (∀ e s h h', Error e h = Ret (s, h') → h' = h)
  ∧ (∀ e c h h', Unwrap e h = Ret (c, h') → h' = h)
  ∧ (∀ e target b h h', Is e target h = Ret (b, h') → h' = h)
  ∧ (∀ e st h h', GRPCStatus e h = Ret (st, h') → h' = h)
  ∧ (∀ st p h h', FromGRPCStatus st h = Ret (p, h') → heap_ext h h').
Proof.
  assert (∀ e fields p h h', AddFields e fields h = Ret (p, h') → heap_ext h h')
    as HAdd.
  { intros e fields p h h' [[_ ->]|(i & ev & ef & f & _ & _ & _ & _ & _ & ->)]%AddFields_inv;
      [done|]. split; by apply prefix_app_r. }
  repeat apply conj.
  - intros service code message p h h'. rewrite New_spec. intros [= _ <-].
    apply alloc_ext.
  - intros err appErr p h h'. unfold Wrap.
    destruct err; [by intros [= _ <-]| |]; unfold bind;
      (destruct (load appErr h) as [[ev h1]| |] eqn:Hl; [|done..]);
      apply load_inv in Hl as [-> _]; intros [= _ <-]; apply alloc_ext.
  - done.
  - intros e key value p h h'. unfold WithField, bind, alloc_map.
    intros H%HAdd. etrans; [apply alloc_map_ext|done].
  - intros e fields p h h'. unfold WithFields, bind.
    destruct (load e h) as [[ev h1]| |] eqn:Hl; [|done..].
    apply load_inv in Hl as [-> _]. intros [= _ <-]. apply alloc_ext.
  - intros e code p h h'. unfold WithGRPCCode, bind.
    destruct (load e h) as [[ev h1]| |] eqn:Hl; [|done..].
    apply load_inv in Hl as [-> _]. intros [= _ <-]. apply alloc_ext.
  - intros e s h h'. apply Error_fuel_heap.
  - intros e c h h'. unfold Unwrap, bind.
    destruct (load e h) as [[ev h1]| |] eqn:Hl; [|done..].
    apply load_inv in Hl as [-> _]. by intros [= _ <-].
  - intros e target b h h'. unfold Is. destruct target as [|t|]; [by intros [= _ <-]| |by intros [= _ <-]].
    unfold bind.
    destruct (load e h) as [[ev h1]| |] eqn:Hl; [|done..].
    apply load_inv in Hl as [-> _].
    destruct (load t h) as [[tv h1]| |] eqn:Hl; [|done..].
    apply load_inv in Hl as [-> _].
    destruct (decide _); [by intros [= _ <-]|].
    destruct (read_map (Fields tv) h) as [[tf h1]| |] eqn:Hr; [|done..].
    apply read_map_inv in Hr as [-> _].
    destruct (read_map (Fields ev) h) as [[ef h1]| |] eqn:Hr; [|done..].
    apply read_map_inv in Hr as [-> _]. by intros [= _ <-].
  - intros e st h h'. unfold GRPCStatus, bind.
    destruct (load e h) as [[ev h1]| |] eqn:Hl; [|done..].
    apply load_inv in Hl as [-> _].
    destruct (read_map (Fields ev) h) as [[fs h1]| |] eqn:Hr; [|done..].
    apply read_map_inv in Hr as [-> _].
    destruct (Status_WithDetails _ _); by intros [= _ <-].
  - intros [s|] p h h'; [|by intros [= _ <-]]. rewrite FromGRPCStatus_spec.
    destruct (first_ErrorDetail _) as [detail|]; [destruct (decide _)|];
      intros [= _ <-]; split; simpl; try done; by apply prefix_app_r.
Qed.

(** [ToJSON] leaves the maps alone, and of a struct at most the [traceID]
    field changes. *)
Theorem ToJSON_frame ctx err b h h' :
  ToJSON ctx err h = Ret (b, h') →
  maps h' = maps h
  ∧ length (objs h') = length (objs h)
  ∧ ∀ i ev, objs h !! i = Some ev → ∃ tid, objs h' !! i = Some (set_traceID ev tid).
Proof.
  assert (∀ ev, set_traceID ev (traceID ev) = ev) as Hid by by intros [].
  assert (maps h = maps h ∧ length (objs h) = length (objs h)
          ∧ ∀ i ev, objs h !! i = Some ev → ∃ tid, objs h !! i = Some (set_traceID ev tid))
    as Hsame.
  { repeat split. intros i ev Hi. exists (traceID ev). by rewrite Hid. }
  destruct err as [|[e|]|text].
  - done.
  - destruct (objs h !! e) as [ev|] eqn:He.
    2:{ unfold ToJSON, bind, store, load.
        destruct (Value_TraceIDKey ctx); unfold ret; by rewrite He. }
    destruct (fields_of h (Fields ev)) as [fs|] eqn:Hfs.
    2:{ unfold ToJSON, bind, store, load, read_map.
        destruct (Value_TraceIDKey ctx); unfold ret; rewrite He; simpl;
          rewrite ?list_lookup_insert_eq by (by eapply lookup_lt_Some); simpl;
          destruct (Fields ev); simpl in *; by rewrite ?Hfs. }
    rewrite (ToJSON_AppError _ _ _ _ _ He Hfs).
    destruct (Value_TraceIDKey ctx) as [|tid|]; intros [= _ <-]; [done| |done].
    simpl. split; [done|]. split; [apply length_insert|].
    intros i ev' Hi. destruct (decide (e = i)) as [->|Hne].
    + exists tid. rewrite list_lookup_insert_eq by by eapply lookup_lt_Some. congruence.
    + exists (traceID ev'). by rewrite list_lookup_insert_ne, Hid.
  - unfold ToJSON, bind. by destruct (Value_TraceIDKey ctx).
  - unfold ToJSON, bind, error_Error, ret. by intros [= _ <-].
Qed.

(** ** Acyclicity is kept by every operation *)

Lemma causes_below_same_causes n (l l' : list AppError) :
  length l' = length l →
  (∀ i ev, l !! i = Some ev → ∃ tid, l' !! i = Some (set_traceID ev tid)) →
  causes_below n l = true → causes_below n l' = true.
Proof.
  revert n l'. induction l as [|x l IH]; intros n [|x' l'] Hlen Hl; try done.
  simpl. intros [Hx Hrest]%andb_true_iff. apply andb_true_iff. split.
  - destruct (Hl 0%nat x eq_refl) as [tid [= ->]]. done.
  - apply IH; [by injection Hlen| |done].
    intros i ev Hi. apply (Hl (S i) ev Hi).
Qed.

(** X15: A cause handed to [Wrap] is the nil error, a foreign error or a struct
    of the store; under that condition every operation that returns leaves
    a store without a cycle. *)
Theorem acyclic_preserved h h' :
  acyclic h →
  (∀ service code message p, New service code message h = Ret (p, h') → acyclic h')
  ∧ (∀ err appErr p, cause_below (length (objs h)) err = true →
       Wrap err appErr h = Ret (p, h') → acyclic h')
  ∧ (∀ e fields p, AddFields e fields h = Ret (p, h') → acyclic h')
  ∧ (∀ e key value p, WithField e key value h = Ret (p, h') → acyclic h')
  ∧ (∀ e fields p, WithFields e fields h = Ret (p, h') → acyclic h')
  ∧ (∀ e code p, WithGRPCCode e code h = Ret (p, h') → acyclic h')
  ∧ (∀ st p, FromGRPCStatus st h = Ret (p, h') → acyclic h')
  ∧ (∀ ctx err b, ToJSON ctx err h = Ret (b, h') → acyclic h').
Proof.
  intros Hh.
  assert (∀ h1 h2 e fields p, acyclic h1 → AddFields e fields h1 = Ret (p, h2) → acyclic h2)
    as HAdd.
  { intros h1 h2 e fields p Hh1
      [[_ ->]|(i & ev & ef & f & _ & Hi & _ & _ & _ & ->)]%AddFields_inv; [done|].
    by apply (acyclic_copy h1 i ev (λ ev, set_Fields ev _)). }
  repeat apply conj.
  - intros service code message p. rewrite New_spec. intros [= _ <-].
    by apply acyclic_alloc.
  - intros err appErr p Herr. unfold Wrap.
    destruct err as [|c|text]; [by intros [= _ <-]| |]; unfold bind;
      (destruct (load appErr h) as [[ev h1]| |] eqn:Hl; [|done..]);
      apply load_inv in Hl as [-> _]; intros [= _ <-]; by apply acyclic_alloc.
  - intros e fields p. by apply HAdd.
  - intros e key value p. unfold WithField, bind, alloc_map. by apply HAdd.
  - intros e fields p. unfold WithFields, bind.
    destruct (load e h) as [[ev h1]| |] eqn:Hl; [|done..].
    apply load_inv in Hl as [-> (i & _ & Hi)]. intros [= _ <-].
    by apply (acyclic_copy h i ev (λ ev, set_Fields ev _)).
  - intros e code p. unfold WithGRPCCode, bind.
    destruct (load e h) as [[ev h1]| |] eqn:Hl; [|done..].
    apply load_inv in Hl as [-> (i & _ & Hi)]. intros [= _ <-].
    by apply (acyclic_copy h i ev (λ ev, set_grpcCode ev _)).
  - intros [s|] p; [|by intros [= _ <-]]. rewrite FromGRPCStatus_spec.
    destruct (first_ErrorDetail _) as [detail|]; [destruct (decide _)|];
      intros [= _ <-]; by apply acyclic_alloc.
  - intros ctx err b (_ & Hlen & Hobjs)%ToJSON_frame.
    by eapply causes_below_same_causes.
Qed.

(** ** Further properties of error.go *)

(** X1: [Unwrap] gives back what [Wrap] was given, whatever cause the template
    had of its own. *)
Theorem Unwrap_after_Wrap err t tv h :
  err ≠ error_nil → objs h !! t = Some tv →
  ∃ r h', Wrap err (Some t) h = Ret (Some r, h')
    ∧ Unwrap (Some r) h' = Ret (err, h').
Proof.
  intros Herr Ht. eexists _, _. rewrite (Wrap_spec _ _ _ _ Herr Ht).
  split; [done|]. unfold Unwrap, bind.
  by erewrite load_lookup by apply lookup_fresh.
Qed.

(** A rendering stays what it is when the store grows. *)
Lemma Error_fuel_ext fuel e s h h' :
  heap_ext h h' → Error_fuel fuel e h = Ret (s, h) → Error_fuel fuel e h' = Ret (s, h').
Proof.
  intros Hext. revert e s. induction fuel as [|fuel IH]; intros e s; [done|].
  destruct e as [e|]; [|done].
  destruct (objs h !! e) as [ev|] eqn:He; [|by rewrite Error_fuel_dangling].
  destruct (fields_of h (Fields ev)) as [fs|] eqn:Hfs;
    [|by erewrite Error_fuel_no_fields].
  rewrite (Error_fuel_S _ _ _ _ _ He Hfs).
  rewrite (Error_fuel_S _ _ _ _ _ (lookup_ext _ _ _ _ Hext He)
             (fields_of_ext _ _ _ _ Hext Hfs)).
  destruct (cause ev) as [|c|text]; [congruence| |congruence].
  destruct (Error_fuel fuel c h) as [[s' h1]| |] eqn:Hc; [|done..].
  pose proof (Error_fuel_heap _ _ _ _ _ Hc) as ->.
  rewrite (IH _ _ Hc). congruence.
Qed.

Lemma Error_live e s h h' : Error (Some e) h = Ret (s, h') → (e < length (objs h))%nat.
Proof.
  unfold Error. destruct (objs h !! e) as [ev|] eqn:He.
  - intros _. by eapply lookup_lt_Some.
  - by rewrite Error_fuel_dangling.
Qed.

Lemma Error_ext e s h h' :
  acyclic h' → heap_ext h h' → Error (Some e) h = Ret (s, h) → Error (Some e) h' = Ret (s, h').
Proof.
  intros Hh' Hext He. pose proof (Error_live _ _ _ _ He) as Hlt.
  unfold Error in *. apply (Error_fuel_ext _ _ _ _ _ Hext) in He.
  destruct Hext as [Hlen%prefix_length _].
  destruct (Error_fuel_stable h' Hh' e (S (length (objs h'))) (S (length (objs h))))
    as [-> _]; [lia..|done].
Qed.

Lemma Error_with_cause e ev fs c s h :
  acyclic h → objs h !! e = Some ev → fields_of h (Fields ev) = Some fs →
  cause ev = c → error_Error c h = Ret (s, h) →
  Error (Some e) h = Ret (head_text ev fs +:+ ": " +:+ s, h).
Proof.
  intros Hh He Hfs Hc Hs. unfold Error.
  rewrite (Error_fuel_S _ _ _ _ _ He Hfs), Hc.
  destruct c as [|[c|]|text]; [done| | |].
  - simpl in Hs. unfold Error in Hs.
    pose proof (acyclic_lookup _ _ _ _ Hh He Hc) as Hlt.
    pose proof (lookup_lt_Some _ _ _ He) as Hlen.
    destruct (Error_fuel_stable h Hh c (length (objs h)) (S (length (objs h))))
      as [-> _]; [lia..|].
    by rewrite Hs.
  - simpl in Hs. unfold Error in Hs. by rewrite Error_fuel_nil in Hs.
  - simpl in Hs. unfold ret in Hs. by injection Hs as ->.
Qed.

(** X2: The rendering of a wrapped value: the template's own text up to its
    fields, then a colon, a blank and the rendering of the new cause; a
    cause the template had before is not rendered any more. *)
Theorem Error_after_Wrap err t tv fs s h :
  acyclic h → objs h !! t = Some tv → fields_of h (Fields tv) = Some fs →
  error_Error err h = Ret (s, h) →
  ∃ r h', Wrap err (Some t) h = Ret (Some r, h')
    ∧ Error (Some r) h' = Ret (head_text tv fs +:+ ": " +:+ s, h').
Proof.
  intros Hh Ht Hfs Hs.
  assert (err ≠ error_nil) as Herr by by intros ->.
  eexists _, _. rewrite (Wrap_spec _ _ _ _ Herr Ht). split; [done|].
  set (h' := mkHeap _ _).
  assert (heap_ext h h') as Hext by apply alloc_ext.
  assert (acyclic h') as Hh'.
  { apply acyclic_alloc; [done|]. simpl. destruct err as [|[c|]|text]; try done.
    simpl in Hs. apply Error_live in Hs. by apply bool_decide_eq_true. }
  apply (Error_with_cause _ (set_cause tv err) fs err);
    [done | apply lookup_fresh | by eapply fields_of_ext | done |].
  destruct err as [|[c|]|text]; simpl in *.
  - by destruct Herr.
  - by apply (Error_ext _ _ h).
  - unfold Error in Hs. by rewrite Error_fuel_nil in Hs.
  - unfold ret in *. by injection Hs as ->.
Qed.

(** X3: [WithFields] keeps the caller's map by reference: the new value reads
    its fields from that very map, so a later assignment to the map shows in
    the value. *)
Theorem WithFields_shares_argument e ev m f k v h :
  objs h !! e = Some ev → maps h !! m = Some f →
  ∃ r rv h1 h2, WithFields (Some e) (Some m) h = Ret (Some r, h1)
    ∧ objs h1 !! e = Some ev
    ∧ objs h1 !! r = Some rv ∧ rv = set_Fields ev (Some m)
    ∧ fields_of h1 (Fields rv) = Some f
    ∧ map_assign (Some m) k v h1 = Ret (tt, h2)
    ∧ objs h2 !! r = Some rv
    ∧ fields_of h2 (Fields rv) = Some (<[k:=v]> f).
Proof.
  intros He Hm. eexists _, _, _, _. rewrite (WithFields_spec _ _ _ _ He).
  split; [done|]. split; [by apply lookup_app_l_Some|].
  split; [apply lookup_fresh|]. split; [done|]. split; [done|].
  unfold map_assign. simpl. rewrite Hm. split; [done|]. simpl.
  split; [apply lookup_fresh|].
  apply list_lookup_insert_eq. by eapply lookup_lt_Some.
Qed.

(** X4: [AddFields] copies: a later assignment to the argument map, or to the
    map of the receiver, does not show in the value it returned. *)
Theorem AddFields_result_detached e ev m f ef m' k v h :
  objs h !! e = Some ev → fields_of h (Fields ev) = Some ef →
  maps h !! m = Some f → f ≠ ∅ →
  (m' = m ∨ Fields ev = Some m') →
  ∃ r rv h1 h2, AddFields (Some e) (Some m) h = Ret (Some r, h1)
    ∧ objs h1 !! r = Some rv
    ∧ map_assign (Some m') k v h1 = Ret (tt, h2)
    ∧ objs h2 !! r = Some rv
    ∧ fields_of h2 (Fields rv) = Some (f ∪ ef).
Proof.
  intros He Hef Hm Hne Hm'.
  assert (∃ f', maps h !! m' = Some f') as [f' Hf'].
  { destruct Hm' as [->|Hm']; [by eexists|]. rewrite Hm' in Hef. by eexists. }
  eexists _, _, _, _. rewrite (AddFields_spec e ev (Some m) f ef h He Hef Hm Hne).
  split; [done|]. split; [apply lookup_fresh|].
  unfold map_assign. simpl. rewrite (lookup_app_l_Some _ _ _ _ Hf').
  split; [done|]. simpl. split; [apply lookup_fresh|].
  rewrite list_lookup_insert_ne; [apply lookup_fresh|].
  apply lookup_lt_Some in Hf'. lia.
Qed.

(** X5: [AddFields] with an empty (or nil) argument returns its receiver, the
    same pointer, and allocates nothing, also for the nil receiver; with a
    non-empty argument the nil receiver is dereferenced. *)
Theorem AddFields_empty_or_nil :
  (∀ e fields h, fields_of h fields = Some ∅ → AddFields e fields h = Ret (e, h))
  ∧ (∀ fields f h, fields_of h fields = Some f → f ≠ ∅ →
       AddFields None fields h = Panic)
  ∧ (∀ key value h, WithField None key value h = Panic).
Proof.
  repeat apply conj.
  - intros e fields h. apply AddFields_empty.
  - intros fields f h Hf Hne. unfold AddFields, bind.
    rewrite (read_map_fields_of _ _ _ Hf).
    by rewrite decide_False by by rewrite map_size_empty_iff.
  - intros key value h. unfold WithField, bind, alloc_map, AddFields, bind, read_map.
    simpl. rewrite lookup_fresh.
    by rewrite decide_False by (rewrite map_size_empty_iff; apply map_non_empty_singleton).
Qed.


(** X7: On live values [Is] is reflexive and transitive. *)
Theorem Is_preorder :
  (∀ e ev fs h, objs h !! e = Some ev → fields_of h (Fields ev) = Some fs →
     Is (Some e) (error_app (Some e)) h = Ret (true, h))
  ∧ (∀ r c d h,
       Is (Some r) (error_app (Some c)) h = Ret (true, h) →
       Is (Some c) (error_app (Some d)) h = Ret (true, h) →
       Is (Some r) (error_app (Some d)) h = Ret (true, h)).
Proof.
  assert (∀ r c h, Is (Some r) (error_app (Some c)) h = Ret (true, h) →
            ∃ rv cv rf cf, objs h !! r = Some rv ∧ objs h !! c = Some cv
              ∧ fields_of h (Fields rv) = Some rf ∧ fields_of h (Fields cv) = Some cf
              ∧ Service rv = Service cv ∧ Code rv = Code cv
              ∧ map_Forall (λ k v, rf !! k = Some v) cf) as Hinv.
  { intros r c h H.
    destruct (objs h !! r) as [rv|] eqn:Hr;
      [|unfold Is, bind, load in H; by rewrite Hr in H].
    destruct (objs h !! c) as [cv|] eqn:Hc;
      [|unfold Is, bind, load in H; by rewrite Hr, Hc in H].
    destruct (decide (Service rv ≠ Service cv ∨ Code rv ≠ Code cv)) as [Hne|Heq].
    { unfold Is, bind in H. rewrite (load_lookup _ _ _ Hr), (load_lookup _ _ _ Hc) in H.
      by rewrite decide_True in H by done. }
    destruct (fields_of h (Fields cv)) as [cf|] eqn:Hcf.
    2:{ unfold Is, bind in H. rewrite (load_lookup _ _ _ Hr), (load_lookup _ _ _ Hc) in H.
        rewrite decide_False in H by done.
        destruct (read_map (Fields cv) h) as [[x h1]| |] eqn:Hx; [|done..].
        apply read_map_inv in Hx as [_ Hx]. congruence. }
    destruct (fields_of h (Fields rv)) as [rf|] eqn:Hrf.
    2:{ unfold Is, bind in H. rewrite (load_lookup _ _ _ Hr), (load_lookup _ _ _ Hc) in H.
        rewrite decide_False in H by done.
        rewrite (read_map_fields_of _ _ _ Hcf) in H.
        destruct (read_map (Fields rv) h) as [[x h1]| |] eqn:Hx; [|done..].
        apply read_map_inv in Hx as [_ Hx]. congruence. }
    rewrite (Is_spec _ _ _ _ _ _ _ Hr Hc Hrf Hcf) in H.
    injection H as H. apply bool_decide_eq_true in H as (? & ? & ?).
    by eexists _, _, _, _. }
  split.
  - intros e ev fs h He Hfs. rewrite (Is_spec _ _ _ _ _ _ _ He He Hfs Hfs).
    do 2 f_equal. apply bool_decide_eq_true.
    split; [done|]. split; [done|]. by intros k v.
  - intros r c d h
      (rv & cv & rf & cf & Hr & Hc & Hrf & Hcf & Hs1 & Hc1 & Hsub1)%Hinv
      (cv' & dv & cf' & df & Hc' & Hd & Hcf' & Hdf & Hs2 & Hc2 & Hsub2)%Hinv.
    rewrite Hc in Hc'. injection Hc' as <-. rewrite Hcf in Hcf'. injection Hcf' as <-.
    rewrite (Is_spec _ _ _ _ _ _ _ Hr Hd Hrf Hdf). do 2 f_equal.
    apply bool_decide_eq_true. split; [congruence|]. split; [congruence|].
    intros k v Hk. apply Hsub1. by apply Hsub2.
Qed.

(** X8: A value keeps matching its template when it is wrapped around a cause or
    given a gRPC code, in both directions: [Is] does not look at the cause,
    the code or the message. *)
Theorem Is_after_Wrap_and_WithGRPCCode :
  (∀ err t tv fs h, err ≠ error_nil → objs h !! t = Some tv →
     fields_of h (Fields tv) = Some fs →
     ∃ r h', Wrap err (Some t) h = Ret (Some r, h')
       ∧ Is (Some r) (error_app (Some t)) h' = Ret (true, h')
       ∧ Is (Some t) (error_app (Some r)) h' = Ret (true, h'))
  ∧ (∀ code t tv fs h, objs h !! t = Some tv → fields_of h (Fields tv) = Some fs →
       ∃ r h', WithGRPCCode (Some t) code h = Ret (Some r, h')
         ∧ Is (Some r) (error_app (Some t)) h' = Ret (true, h')
         ∧ Is (Some t) (error_app (Some r)) h' = Ret (true, h')).
Proof.
  assert (∀ t tv fs f h, objs h !! t = Some tv → fields_of h (Fields tv) = Some fs →
            Service (f tv) = Service tv → Code (f tv) = Code tv →
            Fields (f tv) = Fields tv →
            let h' := mkHeap (objs h ++ [f tv]) (maps h) in
            Is (Some (length (objs h))) (error_app (Some t)) h' = Ret (true, h')
            ∧ Is (Some t) (error_app (Some (length (objs h)))) h' = Ret (true, h')) as Hcopy.
  { intros t tv fs f h Ht Hfs Hs Hc Hf h'.
    assert (objs h' !! length (objs h) = Some (f tv)) as Hr by apply lookup_fresh.
    assert (objs h' !! t = Some tv) as Ht' by by apply lookup_app_l_Some.
    assert (fields_of h' (Fields (f tv)) = Some fs) as Hrf by by rewrite Hf.
    split.
    - rewrite (Is_spec _ _ _ _ _ _ _ Hr Ht' Hrf Hfs). do 2 f_equal.
      apply bool_decide_eq_true. split; [done|]. split; [done|]. by intros k v.
    - rewrite (Is_spec _ _ _ _ _ _ _ Ht' Hr Hfs Hrf). do 2 f_equal.
      apply bool_decide_eq_true. split; [done|]. split; [done|]. by intros k v. }
  split.
  - intros err t tv fs h Herr Ht Hfs. eexists _, _.
    rewrite (Wrap_spec _ _ _ _ Herr Ht). split; [done|].
    by apply (Hcopy t tv fs (λ tv, set_cause tv err)).
  - intros code t tv fs h Ht Hfs. eexists _, _.
    rewrite (WithGRPCCode_spec _ _ _ _ Ht). split; [done|].
    by apply (Hcopy t tv fs (λ tv, set_grpcCode tv (uint32 code))).
Qed.

(** X9: What a nil [*AppError] does as receiver or as candidate: the copying
    builders, [Error], [Unwrap] and [GRPCStatus] dereference it; [Is] returns
    false for a candidate that is no [*AppError] before it looks at its
    receiver, and dereferences a nil receiver or a nil candidate otherwise. *)
Theorem nil_AppError_panics :
  (∀ fields h, WithFields None fields h = Panic)
  ∧ (∀ code h, WithGRPCCode None code h = Panic)
  ∧ (∀ h, Error None h = Panic)
  ∧ (∀ h, Unwrap None h = Panic)
  ∧ (∀ h, GRPCStatus None h = Panic)
  ∧ (∀ err h, err ≠ error_nil → Wrap err None h = Panic)
  ∧ (∀ t h, Is None (error_app t) h = Panic)
  ∧ (∀ r h, Is r (error_app None) h = Panic)
  ∧ (∀ text h, Is None (error_other text) h = Ret (false, h)).
Proof.
  repeat apply conj; try done.
  - intros err h Herr. by destruct err.
  - intros r h. unfold Is, bind, load. destruct r as [r|]; [|done].
    by destruct (objs h !! r).
Qed.

(** The round trip, with what it leaves in the store. *)
Lemma GRPC_round_trip_aux e ev fs h :
  objs h !! e = Some ev →
  fields_of h (Fields ev) = Some fs →
  0 ≤ grpcCode ev < 2 ^ 32 →
  proto_marshals (mkErrorDetail (Service ev) (Code ev) (Message ev) fs) = true →
  ∃ d dv h',
    (st <- GRPCStatus (Some e) ;; FromGRPCStatus (Some st)) h = Ret (Some d, h')
    ∧ objs h' !! d = Some dv
    ∧ Service dv = Service ev ∧ Code dv = Code ev ∧ Message dv = Message ev
    ∧ fields_of h' (Fields dv) = Some fs
    ∧ grpcCode dv = (if decide (grpcCode ev = 0) then codes_Unknown else grpcCode ev)
    ∧ heap_ext h h'.
Proof.
  intros He Hfs Hc Hm. unfold bind.
  rewrite (GRPCStatus_spec _ _ _ _ He Hfs Hc). cbv zeta. rewrite Hm.
  rewrite FromGRPCStatus_spec. simpl.
  assert (Status_Code
            (mkStatus (int32 (if decide (grpcCode ev = codes_OK) then codes_Unknown
                              else grpcCode ev)) (Message ev)
               [Any_ErrorDetail (mkErrorDetail (Service ev) (Code ev) (Message ev) fs)])
          = if decide (grpcCode ev = 0) then codes_Unknown else grpcCode ev) as ->.
  { unfold Status_Code. simpl. apply uint32_int32.
    unfold codes_OK, codes_Unknown. destruct (decide _); lia. }
  destruct (decide (fs = ∅)) as [->|Hne].
  - eexists _, _, _. split; [done|]. split; [apply lookup_fresh|]. simpl.
    do 5 (split; [done|]). apply alloc_ext.
  - eexists _, _, _. split; [done|]. split; [apply lookup_fresh|]. simpl.
    rewrite lookup_fresh. do 5 (split; [done|]). split; by apply prefix_app_r.
Qed.

(** ** Further properties of grpc.go *)

(** X10: [GRPCStatus] never reports OK: the status carries the code of the value,
    Unknown for the zero code, with the message of the value and exactly one
    detail; or, when the detail does not marshal, Internal with a fixed
    message and no detail. *)
Theorem GRPCStatus_never_OK e ev fs h :
  objs h !! e = Some ev → fields_of h (Fields ev) = Some fs →
  0 ≤ grpcCode ev < 2 ^ 32 →
  ∃ st, GRPCStatus (Some e) h = Ret (st, h)
    ∧ Status_Code st ≠ codes_OK
    ∧ (proto_marshals (mkErrorDetail (Service ev) (Code ev) (Message ev) fs) = true →
         Status_Code st = (if decide (grpcCode ev = 0) then codes_Unknown else grpcCode ev)
         ∧ Status_Message st = Message ev
         ∧ Status_Details st
           = [Any_ErrorDetail (mkErrorDetail (Service ev) (Code ev) (Message ev) fs)])
    ∧ (proto_marshals (mkErrorDetail (Service ev) (Code ev) (Message ev) fs) = false →
         Status_Code st = codes_Internal
         ∧ Status_Message st = "failed to marshal error"
         ∧ Status_Details st = []).
Proof.
  intros He Hfs Hc. eexists. rewrite (GRPCStatus_spec _ _ _ _ He Hfs Hc).
  split; [done|]. cbv zeta.
  assert (Status_Code
            (mkStatus (int32 (if decide (grpcCode ev = codes_OK) then codes_Unknown
                              else grpcCode ev)) (Message ev)
               [Any_ErrorDetail (mkErrorDetail (Service ev) (Code ev) (Message ev) fs)])
          = if decide (grpcCode ev = 0) then codes_Unknown else grpcCode ev) as Hcode.
  { unfold Status_Code. simpl. apply uint32_int32.
    unfold codes_OK, codes_Unknown. destruct (decide _); lia. }
  destruct (proto_marshals _).
  - split; [|split; [|done]].
    + rewrite Hcode. unfold codes_OK, codes_Unknown in *.
      destruct (decide (grpcCode ev = 0)); lia.
    + intros _. by rewrite Hcode.
  - split; [done|]. split; [done|]. by intros _.
Qed.

(** X11: A code set with [WithGRPCCode] is the code of the decoded value (the
    zero code comes back as Unknown); the other components travel as they
    are, and the receiver of [WithGRPCCode] keeps its own code. *)
Theorem WithGRPCCode_round_trip e ev fs code h :
  objs h !! e = Some ev → fields_of h (Fields ev) = Some fs →
  0 ≤ code < 2 ^ 32 →
  proto_marshals (mkErrorDetail (Service ev) (Code ev) (Message ev) fs) = true →
  ∃ d dv h',
    (r <- WithGRPCCode (Some e) code ;;
     st <- GRPCStatus r ;;
     FromGRPCStatus (Some st)) h = Ret (Some d, h')
    ∧ objs h' !! d = Some dv
    ∧ grpcCode dv = (if decide (code = 0) then codes_Unknown else code)
    ∧ Service dv = Service ev ∧ Code dv = Code ev ∧ Message dv = Message ev
    ∧ fields_of h' (Fields dv) = Some fs
    ∧ objs h' !! e = Some ev.
Proof.
  intros He Hfs Hc Hm. unfold bind at 1.
  rewrite (WithGRPCCode_spec _ _ _ _ He).
  set (h1 := mkHeap _ _).
  assert (heap_ext h h1) as Hext by apply alloc_ext.
  assert (uint32 code = code) as Hu by by apply Z.mod_small.
  destruct (GRPC_round_trip_aux (length (objs h)) (set_grpcCode ev (uint32 code)) fs h1)
    as (d & dv & h' & Hrun & Hd & Hs & Hco & Hme & Hf & Hg & Hext');
    [apply lookup_fresh | by eapply fields_of_ext | simpl; by rewrite Hu | done |].
  exists d, dv, h'. split; [done|]. split; [done|].
  simpl in Hg. rewrite Hu in Hg. repeat split; try done.
  eapply lookup_ext; [|done]. by etrans.
Qed.

(** X12: When the detail does not marshal, what is decoded is the fallback value:
    service [unknown], code [00000], the fixed message, the code Internal
    (13), no fields. *)
Theorem marshal_failure_degrades e ev fs h :
  objs h !! e = Some ev → fields_of h (Fields ev) = Some fs →
  0 ≤ grpcCode ev < 2 ^ 32 →
  proto_marshals (mkErrorDetail (Service ev) (Code ev) (Message ev) fs) = false →
  (st <- GRPCStatus (Some e) ;; FromGRPCStatus (Some st)) h
  = Ret (Some (length (objs h)),
         mkHeap (objs h ++ [mkAppError "unknown" "00000" "failed to marshal error"
                              None error_nil codes_Internal ""])
                (maps h)).
Proof.
  intros He Hfs Hc Hm. unfold bind.
  rewrite (GRPCStatus_spec _ _ _ _ He Hfs Hc). cbv zeta. rewrite Hm.
  by rewrite FromGRPCStatus_spec.
Qed.

(** X13: [FromGRPCStatus] decodes the first [pb.ErrorDetail] of the status,
    whatever stands before or after it; the message of the value is the one
    of the detail, not the one of the status. *)
Theorem FromGRPCStatus_first_detail s pre detail post h :
  Status_Details s = pre ++ Any_ErrorDetail detail :: post →
  (∀ d, Any_ErrorDetail d ∉ pre) →
  ∃ d dv h', FromGRPCStatus (Some s) h = Ret (Some d, h')
    ∧ objs h' !! d = Some dv
    ∧ Service dv = pb_Service detail ∧ Code dv = pb_Code detail
    ∧ Message dv = pb_Message detail
    ∧ fields_of h' (Fields dv) = Some (pb_Fields detail)
    ∧ grpcCode dv = Status_Code s ∧ cause dv = error_nil ∧ traceID dv = ""
    ∧ heap_ext h h'.
Proof.
  intros Hd Hpre. rewrite FromGRPCStatus_spec, Hd.
  assert (first_ErrorDetail (pre ++ Any_ErrorDetail detail :: post) = Some detail) as ->.
  { clear Hd. induction pre as [|[d|] pre IH]; simpl; [done| |].
    - exfalso. apply (Hpre d). by left.
    - apply IH. intros d Hin. apply (Hpre d). by right. }
  destruct (decide (pb_Fields detail = ∅)) as [Hempty|Hne].
  - eexists _, _, _. split; [done|]. split; [apply lookup_fresh|].
    simpl. rewrite Hempty. do 7 (split; [done|]). apply alloc_ext.
  - eexists _, _, _. split; [done|]. split; [apply lookup_fresh|].
    simpl. rewrite lookup_fresh. do 7 (split; [done|]). split; by apply prefix_app_r.
Qed.

(** ** Further properties of gateway.go *)

(** X17: The object [ToJSON] marshals for a live value, member by member:
    [service] and [code] when they are not empty, [message] always, [fields]
    when there are any, and [trace_id] when the trace id in force is not
    empty; that is the string bound in the context, if there is one (also
    the empty string), and the one stored in the value otherwise.  The trace
    id in force is what the value holds afterwards. *)
Theorem ToJSON_object ctx e ev fs h :
  objs h !! e = Some ev → fields_of h (Fields ev) = Some fs →
  let tid := match Value_TraceIDKey ctx with
             | any_string t => t
             | _ => traceID ev
             end in
  ∃ members h', ToJSON ctx (error_app (Some e)) h = Ret (bytes_json members, h')
    ∧ objs h' !! e = Some (set_traceID ev tid)
    ∧ ∀ key val, (key, val) ∈ members ↔
        (key = "service" ∧ val = JString (Service ev) ∧ Service ev ≠ "")
        ∨ (key = "code" ∧ val = JString (Code ev) ∧ Code ev ≠ "")
        ∨ (key = "message" ∧ val = JString (Message ev))
        ∨ (key = "fields" ∧ val = JStringMap fs ∧ fs ≠ ∅)
        ∨ (key = "trace_id" ∧ val = JString tid ∧ tid ≠ "").
Proof.
  intros He Hfs tid.
  assert (∀ key val, (key, val) ∈ alias_members ev fs tid ↔
            (key = "service" ∧ val = JString (Service ev) ∧ Service ev ≠ "")
            ∨ (key = "code" ∧ val = JString (Code ev) ∧ Code ev ≠ "")
            ∨ (key = "message" ∧ val = JString (Message ev))
            ∨ (key = "fields" ∧ val = JStringMap fs ∧ fs ≠ ∅)
            ∨ (key = "trace_id" ∧ val = JString tid ∧ tid ≠ "")) as Hmem.
  { assert (∀ k s key val, (key, val) ∈ omitempty_string k s
              ↔ key = k ∧ val = JString s ∧ s ≠ "") as Hs.
    { intros k s key val. unfold omitempty_string. destruct (decide (s = "")).
      - rewrite elem_of_nil. tauto.
      - rewrite list_elem_of_singleton. split; [by intros [= -> ->]|].
        by intros (-> & -> & _). }
    intros key val. unfold alias_members. rewrite omitempty_map_alt.
    rewrite !elem_of_app, !Hs, list_elem_of_singleton.
    destruct (decide (fs = ∅)) as [Hfs'|Hfs'].
    - rewrite elem_of_nil. split; [|intros [?|[?|[?|[?|?]]]]]; try tauto.
      + intros [?|[?|[[= -> ->]|[?|?]]]]; tauto.
      + right. right. left. destruct H as [-> ->]. done.
    - rewrite list_elem_of_singleton. split.
      + intros [?|[?|[[= -> ->]|[[= -> ->]|?]]]]; tauto.
      + intros [?|[?|[[-> ->]|[(-> & -> & _)|?]]]]; tauto. }
  rewrite (ToJSON_AppError _ _ _ _ _ He Hfs). subst tid.
  destruct (Value_TraceIDKey ctx) as [|t|]; eexists _, _; (split; [done|]).
  - split; [|done]. rewrite He. by destruct ev.
  - split; [|done]. simpl. apply list_lookup_insert_eq. by eapply lookup_lt_Some.
  - split; [|done]. rewrite He. by destruct ev.
Qed.

(** X18: Whatever [ToJSON] is given, when it returns every map is as it was and
    every struct is as it was but for its [traceID]; a [traceID] that has
    changed is the one of the value that was serialized, and is now the
    string bound in the context. *)
Theorem ToJSON_touches_only_traceID ctx err b h h' :
  ToJSON ctx err h = Ret (b, h') →
  maps h' = maps h
  ∧ ∀ i ev, objs h !! i = Some ev →
      ∃ ev', objs h' !! i = Some ev'
        ∧ Service ev' = Service ev ∧ Code ev' = Code ev ∧ Message ev' = Message ev
        ∧ Fields ev' = Fields ev ∧ cause ev' = cause ev ∧ grpcCode ev' = grpcCode ev
        ∧ (traceID ev' ≠ traceID ev →
             err = error_app (Some i)
             ∧ Value_TraceIDKey ctx = any_string (traceID ev')).
Proof.
  intros H.
  assert (∀ i ev, objs h !! i = Some ev →
            ∃ ev', objs h !! i = Some ev'
              ∧ Service ev' = Service ev ∧ Code ev' = Code ev ∧ Message ev' = Message ev
              ∧ Fields ev' = Fields ev ∧ cause ev' = cause ev ∧ grpcCode ev' = grpcCode ev
              ∧ (traceID ev' ≠ traceID ev →
                   err = error_app (Some i)
                   ∧ Value_TraceIDKey ctx = any_string (traceID ev'))) as Hsame.
  { intros i ev Hi. exists ev. by repeat split. }
  destruct err as [|[e|]|text].
  - done.
  - destruct (objs h !! e) as [ev|] eqn:He.
    2:{ unfold ToJSON, bind, store, load in H.
        destruct (Value_TraceIDKey ctx); unfold ret in H; by rewrite He in H. }
    destruct (fields_of h (Fields ev)) as [fs|] eqn:Hfs.
    2:{ unfold ToJSON, bind, store, load, read_map in H.
        destruct (Value_TraceIDKey ctx); unfold ret in H; rewrite He in H; simpl in H;
          rewrite ?list_lookup_insert_eq in H by (by eapply lookup_lt_Some); simpl in H;
          destruct (Fields ev); simpl in *; by rewrite ?Hfs in H. }
    rewrite (ToJSON_AppError _ _ _ _ _ He Hfs) in H.
    destruct (Value_TraceIDKey ctx) as [|tid|] eqn:Hctx; injection H as _ <-;
      [done| |done].
    simpl. split; [done|]. intros i ev' Hi. destruct (decide (e = i)) as [->|Hne].
    + exists (set_traceID ev tid).
      rewrite list_lookup_insert_eq by by eapply lookup_lt_Some.
      rewrite He in Hi. injection Hi as <-. by repeat split.
    + exists ev'. rewrite list_lookup_insert_ne by done. by repeat split.
  - unfold ToJSON, bind in H. by destruct (Value_TraceIDKey ctx).
  - unfold ToJSON, bind, error_Error, ret in H. by injection H as _ <-.
Qed.

(** ** The gateway handler *)

(** X20: The handler on a live value whose detail marshals: the body carries the
    service, the code (as service code), the message and the fields of the
    value and the trace id of the context, under the HTTP code of the gRPC
    code of the value (of Unknown for the zero code); the value itself is
    not touched. *)
Theorem GRPCAppErrorHandler_AppError foreign_GRPCStatus ctx e ev fs h :
  objs h !! e = Some ev → fields_of h (Fields ev) = Some fs →
  0 ≤ grpcCode ev < 2 ^ 32 →
  proto_marshals (mkErrorDetail (Service ev) (Code ev) (Message ev) fs) = true →
  let resp :=
    mkHTTPError
      (HTTPStatusFromCode (if decide (grpcCode ev = 0) then codes_Unknown else grpcCode ev))
      (Service ev) (Code ev) (Message ev) fs
      (match Value_TraceIDKey ctx with any_string t => t | _ => "" end) in
  GRPCAppErrorHandler foreign_GRPCStatus ctx (error_app (Some e)) h
  = Ret ([Header_Set "Content-Type" (marshaler_ContentType resp);
          WriteHeader (http_Code resp);
          Encode resp]
         ++ (if Encode_fails resp then [DefaultHTTPErrorHandler (error_app (Some e))]
             else []), h).
Proof.
  intros He Hfs Hc Hm resp.
  unfold GRPCAppErrorHandler, status_Convert, status_FromError, bind.
  rewrite (GRPCStatus_spec _ _ _ _ He Hfs Hc). cbv zeta. rewrite Hm. unfold ret.
  cbn [fst].
  set (st := mkStatus _ _ _).
  assert (pStatus_Code (Some st)
          = if decide (grpcCode ev = 0) then codes_Unknown else grpcCode ev) as Hcode.
  { unfold pStatus_Code, Status_Code, st. simpl. apply uint32_int32.
    unfold codes_OK, codes_Unknown. destruct (decide _); lia. }
  assert (handler_resp ctx (Some st) = resp) as ->.
  { unfold handler_resp. rewrite Hcode. unfold resp. simpl.
    destruct (decide (Message ev ≠ "")) as [Hne|Heq%dec_stable];
      destruct (Value_TraceIDKey ctx); simpl; try done; by rewrite Heq. }
  by rewrite Hcode.
Qed.

(** X21: The handler on the other errors.  The nil error is answered under
    the HTTP code of OK with an empty message.  A foreign error that carries
    no gRPC status is answered under the HTTP code of Unknown with its text
    as message; neither has a service, a service code or fields.  A foreign
    error that carries a status is answered under the HTTP code of that
    status: without a [pb.ErrorDetail], with the message of the status and
    nothing else; with one, with the service, the code and the fields of the
    first such detail and its message, unless that is empty, in which case
    the message of the status stands.  A value whose detail does not marshal
    is answered under the HTTP code of Internal with the fixed message. *)
Theorem GRPCAppErrorHandler_other_errors foreign_GRPCStatus ctx h :
  let tid := match Value_TraceIDKey ctx with any_string t => t | _ => "" end in
  let events err resp :=
    [Header_Set "Content-Type" (marshaler_ContentType resp);
     WriteHeader (http_Code resp);
     Encode resp]
    ++ (if Encode_fails resp then [DefaultHTTPErrorHandler err] else []) in
  GRPCAppErrorHandler foreign_GRPCStatus ctx error_nil h
  = Ret (events error_nil
           (mkHTTPError (HTTPStatusFromCode codes_OK) "" "" "" ∅ tid), h)
  ∧ (∀ text, foreign_GRPCStatus text = None →
       GRPCAppErrorHandler foreign_GRPCStatus ctx (error_other text) h
       = Ret (events (error_other text)
                (mkHTTPError (HTTPStatusFromCode codes_Unknown) "" "" text ∅ tid), h))
  ∧ (∀ text st, foreign_GRPCStatus text = Some st →
       (∀ d, Any_ErrorDetail d ∉ Status_Details st) →
       GRPCAppErrorHandler foreign_GRPCStatus ctx (error_other text) h
       = Ret (events (error_other text)
                (mkHTTPError (HTTPStatusFromCode (Status_Code st)) "" ""
                   (Status_Message st) ∅ tid), h))
  ∧ (∀ text st pre detail post, foreign_GRPCStatus text = Some st →
       Status_Details st = pre ++ Any_ErrorDetail detail :: post →
       (∀ d, Any_ErrorDetail d ∉ pre) →
       GRPCAppErrorHandler foreign_GRPCStatus ctx (error_other text) h
       = Ret (events (error_other text)
                (mkHTTPError (HTTPStatusFromCode (Status_Code st))
                   (pb_Service detail) (pb_Code detail)
                   (if decide (pb_Message detail = "") then Status_Message st
                    else pb_Message detail)
                   (pb_Fields detail) tid), h))
  ∧ (∀ e ev fs, objs h !! e = Some ev → fields_of h (Fields ev) = Some fs →
       0 ≤ grpcCode ev < 2 ^ 32 →
       proto_marshals (mkErrorDetail (Service ev) (Code ev) (Message ev) fs) = false →
       GRPCAppErrorHandler foreign_GRPCStatus ctx (error_app (Some e)) h
       = Ret (events (error_app (Some e))
                (mkHTTPError (HTTPStatusFromCode codes_Internal) "" ""
                   "failed to marshal error" ∅ tid), h)).
Proof.
  intros tid events. subst tid events. repeat apply conj.
  - unfold GRPCAppErrorHandler, status_Convert, status_FromError, bind, ret, handler_resp.
    simpl. by destruct (Value_TraceIDKey ctx).
  - intros text Hf.
    unfold GRPCAppErrorHandler, status_Convert, status_FromError, bind.
    rewrite Hf. unfold ret, handler_resp.
    simpl. by destruct (Value_TraceIDKey ctx).
  - intros text st Hf Hno.
    unfold GRPCAppErrorHandler, status_Convert, status_FromError, bind.
    rewrite Hf. unfold ret, handler_resp. cbn [fst pStatus_Details pStatus_Code
      pStatus_Message].
    rewrite (first_ErrorDetail_None _ Hno). by destruct (Value_TraceIDKey ctx).
  - intros text st pre detail post Hf Hd Hpre.
    unfold GRPCAppErrorHandler, status_Convert, status_FromError, bind.
    rewrite Hf. unfold ret, handler_resp. cbn [fst pStatus_Details pStatus_Code
      pStatus_Message].
    rewrite Hd.
    assert (first_ErrorDetail (pre ++ Any_ErrorDetail detail :: post) = Some detail) as ->.
    { clear Hd. induction pre as [|[d|] pre IH]; simpl; [done| |].
      - exfalso. apply (Hpre d). by left.
      - apply IH. intros d Hin. apply (Hpre d). by right. }
    destruct (decide (pb_Message detail = "")) as [Heq|Hne].
    + rewrite decide_False by (by intros Hn; apply Hn).
      by destruct (Value_TraceIDKey ctx).
    + rewrite decide_True by done. by destruct (Value_TraceIDKey ctx).
  - intros e ev fs He Hfs Hc Hm.
    unfold GRPCAppErrorHandler, status_Convert, status_FromError, bind.
    rewrite (GRPCStatus_spec _ _ _ _ He Hfs Hc). cbv zeta. rewrite Hm.
    unfold ret, handler_resp. simpl. by destruct (Value_TraceIDKey ctx).
Qed.

(** ** The draft package errors *)

Lemma errors_WithFields_loop_spec entries e ev m cur h :
  objs h !! e = Some ev → Fields ev = Some m → maps h !! m = Some cur →
  errors_WithFields_loop (Some e) entries h
  = Ret (tt, mkHeap (objs h) (<[m := merge_entries cur entries]> (maps h))).
Proof.
  intros He Hf. revert cur h He.
  induction entries as [|[k v] entries IH]; intros cur h He Hm; simpl.
  - unfold ret. by rewrite list_insert_id, heap_eta.
  - unfold bind. rewrite (load_lookup _ _ _ He), Hf. unfold map_assign. rewrite Hm.
    rewrite (IH (<[k:=v]> cur)); simpl.
    + by rewrite list_insert_insert_eq.
    + done.
    + apply list_lookup_insert_eq. by eapply lookup_lt_Some.
Qed.

Lemma range_nonempty f : f ≠ ∅ → range f ≠ [].
Proof.
  intros Hne Hnil. apply Hne, map_to_list_empty_iff.
  apply Permutation_nil_r. by rewrite <-(range_perm f), Hnil.
Qed.

Lemma errors_WithFields_spec e ev m ef fields f h :
  objs h !! e = Some ev → Fields ev = Some m → maps h !! m = Some ef →
  fields_of h fields = Some f →
  errors_WithFields (Some e) fields h
  = Ret (Some e, mkHeap (objs h) (<[m := f ∪ ef]> (maps h))).
Proof.
  intros He Hf Hm Hfs. unfold errors_WithFields, bind.
  rewrite (read_map_fields_of _ _ _ Hfs).
  by rewrite (errors_WithFields_loop_spec _ _ _ _ _ _ He Hf Hm), merge_entries_range.
Qed.

(** X22: [WithFields] of the draft returns its receiver and allocates nothing:
    it writes the argument into the receiver's own map, over what the map
    held, so every value that shares the map has the new fields. *)
Theorem errors_WithFields_in_place e ev m ef fields f h :
  objs h !! e = Some ev → Fields ev = Some m → maps h !! m = Some ef →
  fields_of h fields = Some f →
  ∃ h', errors_WithFields (Some e) fields h = Ret (Some e, h')
    ∧ objs h' = objs h
    ∧ length (maps h') = length (maps h)
    ∧ maps h' !! m = Some (f ∪ ef)
    ∧ (∀ m' x, m' ≠ m → maps h !! m' = Some x → maps h' !! m' = Some x)
    ∧ (∀ e2 ev2, objs h !! e2 = Some ev2 → Fields ev2 = Some m →
         objs h' !! e2 = Some ev2 ∧ fields_of h' (Fields ev2) = Some (f ∪ ef)).
Proof.
  intros He Hf Hm Hfs. eexists.
  rewrite (errors_WithFields_spec _ _ _ _ _ _ _ He Hf Hm Hfs).
  split; [done|]. simpl. split; [done|]. split; [apply length_insert|].
  assert (<[m:=f ∪ ef]> (maps h) !! m = Some (f ∪ ef)) as Hnew.
  { apply list_lookup_insert_eq. by eapply lookup_lt_Some. }
  split; [done|]. split.
  - intros m' x Hne Hx. by rewrite list_lookup_insert_ne.
  - intros e2 ev2 He2 Hf2. split; [done|]. by rewrite Hf2.
Qed.

(** X23: A value without a map cannot take fields in the draft: [WithFields]
    with a non-empty argument assigns to an entry of the nil map.  Such are
    the values [FromGRPCStatus] of the draft builds from a status without a
    detail. *)
Theorem errors_WithFields_nil_map_panics :
  (∀ e ev fields f h, objs h !! e = Some ev → Fields ev = None →
     fields_of h fields = Some f → f ≠ ∅ →
     errors_WithFields (Some e) fields h = Panic)
  ∧ (∀ s fields f h, (∀ detail, Any_ErrorDetail detail ∉ Status_Details s) →
       fields_of h fields = Some f → f ≠ ∅ →
       (r <- errors_FromGRPCStatus (Some s) ;; errors_WithFields r fields) h = Panic).
Proof.
  assert (∀ e ev fields f h, objs h !! e = Some ev → Fields ev = None →
            fields_of h fields = Some f → f ≠ ∅ →
            errors_WithFields (Some e) fields h = Panic) as Hnil.
  { intros e ev fields f h He Hf Hfs Hne. unfold errors_WithFields, bind.
    rewrite (read_map_fields_of _ _ _ Hfs).
    destruct (range f) as [|[k v] entries] eqn:Hr; [by apply range_nonempty in Hr|].
    simpl. unfold bind. by rewrite (load_lookup _ _ _ He), Hf. }
  split; [done|].
  intros s fields f h Hno Hfs Hne. unfold bind, errors_FromGRPCStatus.
  rewrite (first_ErrorDetail_None _ Hno). unfold alloc.
  eapply Hnil; [apply lookup_fresh|done| |done].
  eapply fields_of_ext; [apply alloc_ext|done].
Qed.

(** X24: [New] and [Wrap] of the draft give every value a map of its own, so
    [WithFields] on a new value returns with exactly the argument as
    fields; and [Wrap] returns a value for the nil error too. *)
Theorem errors_New_Wrap_take_fields err service code message fields f h :
  fields_of h fields = Some f →
  ∃ e ev h',
    (e <- errors_Wrap err service code message ;; errors_WithFields e fields) h
    = Ret (Some e, h')
    ∧ objs h !! e = None
    ∧ objs h' !! e = Some ev
    ∧ ev = mkAppError service code message (Some (length (maps h))) err 0 ""
    ∧ fields_of h' (Fields ev) = Some f
    ∧ errors_New service code message = errors_Wrap error_nil service code message.
Proof.
  intros Hfs. unfold bind at 1. unfold errors_Wrap, bind, alloc_map, alloc.
  set (ev := mkAppError service code message (Some (length (maps h))) err 0 "").
  cbn [objs maps].
  set (h1 := mkHeap (objs h ++ [ev]) (maps h ++ [∅])).
  rewrite (errors_WithFields_spec (length (objs h)) ev (length (maps h)) ∅ fields f h1);
    [|apply lookup_fresh|done|apply lookup_fresh|].
  2:{ eapply fields_of_ext; [|done]. split; simpl; by apply prefix_app_r. }
  eexists _, ev, _. split; [done|].
  split; [by apply lookup_ge_None_2|]. simpl. split; [apply lookup_fresh|].
  split; [done|]. split; [|done]. rewrite insert_fresh, lookup_fresh.
  by rewrite (right_id_L ∅ (∪)).
Qed.

(** X25: [WithGRPCCode] of the draft returns its receiver with the code written
    into it, so the status of that same value (of every pointer to it)
    carries the code from then on. *)
Theorem errors_WithGRPCCode_in_place e ev fs code h :
  objs h !! e = Some ev → fields_of h (Fields ev) = Some fs →
  0 < code < 2 ^ 32 →
  proto_marshals (mkErrorDetail (Service ev) (Code ev) (Message ev) fs) = true →
  ∃ st h',
    (r <- errors_WithGRPCCode (Some e) code ;; errors_GRPCStatus (Some e)) h
    = Ret (st, h')
    ∧ h' = mkHeap (<[e := set_grpcCode ev code]> (objs h)) (maps h)
    ∧ errors_WithGRPCCode (Some e) code h = Ret (Some e, h')
    ∧ Status_Code st = code ∧ Status_Message st = Message ev
    ∧ Status_Details st
      = [Any_ErrorDetail (mkErrorDetail (Service ev) (Code ev) (Message ev) fs)].
Proof.
  intros He Hfs Hc Hm.
  assert (errors_WithGRPCCode (Some e) code h
          = Ret (Some e, mkHeap (<[e := set_grpcCode ev code]> (objs h)) (maps h))) as Hw.
  { unfold errors_WithGRPCCode, bind, store. by rewrite He. }
  unfold bind at 1. rewrite Hw. unfold errors_GRPCStatus, bind.
  erewrite load_lookup; [|simpl; apply list_lookup_insert_eq; by eapply lookup_lt_Some].
  rewrite (read_map_fields_of _ fs) by exact Hfs.
  cbn [grpcCode set_grpcCode Message Service Code].
  rewrite decide_True by (unfold codes_OK; lia).
  unfold Status_WithDetails, status_New, Status_Code. cbn [st_code st_message st_details].
  rewrite uint32_int32 by lia.
  rewrite decide_False by (unfold codes_OK; lia). rewrite Hm.
  eexists _, _. split; [done|]. split; [done|]. split; [done|].
  unfold Status_Code, Status_Message, Status_Details. simpl.
  by rewrite uint32_int32 by lia.
Qed.

(** X16: In a store without a cause cycle the recursion of [Error] along the
    cause chain comes to an end: the call returns a text, with the store as
    it was, or panics on a nil or dangling link. *)
Theorem Error_terminates e h :
  acyclic h → (∃ s, Error e h = Ret (s, h)) ∨ Error e h = Panic.
Proof.
  intros Hh. pose proof (Error_total e h Hh) as Hne.
  destruct (Error e h) as [[s h']| |] eqn:He; [|by right|done].
  left. exists s. unfold Error in He. by apply Error_fuel_heap in He as ->.
Qed.

End Apperror.

(** * The statements at concrete inputs *)

(** C3 as the claim words it, at [New("svc","C1","msg")] with key [k] and
    value [v]: [template.Is(e)] returns false. *)
Lemma Is_template_refuses_enriched :
  ∃ h', (t <- New "svc" "C1" "msg" ;;
         e <- WithField map_to_list t "k" "v" ;;
         Is map_to_list t (error_app e)) (mkHeap [] []) = Ret (false, h').
Proof. eexists. vm_compute. reflexivity. Qed.

Lemma Is_enriched_matches_template_witness :
  ∃ e h', WithField map_to_list (Some 0%nat) "k" "v" example_store = Ret (Some e, h')
    ∧ Is map_to_list (Some e) (error_app (Some 0%nat)) h' = Ret (true, h')
    ∧ Is map_to_list (Some 0%nat) (error_app (Some e)) h' = Ret (false, h').
Proof.
  exact (proj1 (Is_enriched_matches_template map_to_list (λ m, Permutation_refl _))
           0%nat example_value {[ "id" := "456" ]} "k" "v" example_store
           eq_refl eq_refl).
Defined.

Lemma GRPC_round_trip_witness :
  ∃ d dv h',
    (st <- GRPCStatus (λ _, true) (Some 0%nat) ;; FromGRPCStatus (Some st)) example_store
    = Ret (Some d, h')
    ∧ objs h' !! d = Some dv
    ∧ Service dv = "user-service" ∧ Code dv = "US-404" ∧ Message dv = "user not found"
    ∧ fields_of h' (Fields dv) = Some {[ "id" := "456" ]}
    ∧ grpcCode dv = 5.
Proof.
  apply (GRPC_round_trip (λ _, true) 0%nat example_value {[ "id" := "456" ]} example_store);
    [reflexivity | reflexivity | simpl; lia | reflexivity].
Defined.

Lemma FromGRPCStatus_total_witness :
  FromGRPCStatus (Some (mkStatus 5 "not found" [Any_other])) (mkHeap [] [])
  = Ret (Some 0%nat,
         mkHeap [mkAppError "unknown" "00000" "not found" None error_nil 5 ""] []).
Proof.
  apply (proj2 (proj2 FromGRPCStatus_total) (mkStatus 5 "not found" [Any_other])
           (mkHeap [] [])).
  simpl. intros detail Hin. by apply list_elem_of_singleton in Hin.
Defined.

Lemma Wrap_nil_and_copy_witness :
  ∃ r rv h', Wrap (error_other "connection refused") (Some 0%nat) example_store
             = Ret (Some r, h')
    ∧ objs example_store !! r = None
    ∧ objs h' !! r = Some rv
    ∧ cause rv = error_other "connection refused"
    ∧ Service rv = "user-service" ∧ Code rv = "US-404"
    ∧ Message rv = "user not found"
    ∧ Fields rv = Some 0%nat ∧ grpcCode rv = 5
    ∧ traceID rv = ""
    ∧ objs h' !! 0%nat = Some example_value
    ∧ heap_ext example_store h'.
Proof.
  apply (proj2 Wrap_nil_and_copy (error_other "connection refused") 0%nat
           example_value example_store); [discriminate | reflexivity].
Defined.

Lemma Error_renders_witness :
  Error map_to_list id (Some 1%nat) example_chain
  = Ret ("[database:DB-500] internal database error: [net:N1] connection refused",
         example_chain).
Proof.
  exact (proj1 (proj2 (proj2 (proj2
           (Error_renders map_to_list (λ m, Permutation_refl _) id))))
           example_chain 1%nat _ ∅ (error_app (Some 0%nat)) "[net:N1] connection refused"
           eq_refl eq_refl eq_refl eq_refl ltac:(discriminate) eq_refl).
Defined.

Lemma AddFields_leaves_receiver_witness :
  ∃ r rv m h', AddFields map_to_list (Some 0%nat) (Some 1%nat) example_store_arg
               = Ret (Some r, h')
    ∧ objs h' !! 0%nat = Some example_value
    ∧ fields_of h' (Fields example_value) = Some {[ "id" := "456" ]}
    ∧ fields_of h' (Some 1%nat) = Some {[ "id" := "789" ]}
    ∧ heap_ext example_store_arg h'
    ∧ objs example_store_arg !! r = None ∧ objs h' !! r = Some rv
    ∧ Fields rv = Some m
    ∧ Service rv = "user-service" ∧ Code rv = "US-404"
    ∧ Message rv = "user not found"
    ∧ cause rv = error_nil ∧ grpcCode rv = 5 ∧ traceID rv = ""
    ∧ maps example_store_arg !! m = None
    ∧ maps h' !! m = Some ({[ "id" := "789" ]} ∪ {[ "id" := "456" ]})
    ∧ fields_of h' (Fields rv) = Some ({[ "id" := "789" ]} ∪ {[ "id" := "456" ]})
    ∧ ∀ k, (({[ "id" := "789" ]} : gmap string string) ∪ {[ "id" := "456" ]}) !! k
           = match ({[ "id" := "789" ]} : gmap string string) !! k with
             | Some v => Some v
             | None => ({[ "id" := "456" ]} : gmap string string) !! k
             end.
Proof.
  apply (AddFields_leaves_receiver map_to_list (λ m, Permutation_refl _)
           0%nat example_value (Some 1%nat) {[ "id" := "789" ]} {[ "id" := "456" ]}
           example_store_arg); [reflexivity | reflexivity | reflexivity |].
  apply map_non_empty_singleton.
Defined.

Lemma decoded_cause_is_nil_witness :
  ∃ d h', (st <- GRPCStatus (λ _, true) (Some 1%nat) ;; FromGRPCStatus (Some st))
            example_chain = Ret (Some d, h')
    ∧ Unwrap (Some d) h' = Ret (error_nil, h').
Proof.
  apply (proj2 (decoded_cause_is_nil (λ _, true)) 1%nat
           (mkAppError "database" "DB-500" "internal database error" None
              (error_app (Some 0%nat)) 0 "") ∅ example_chain);
    reflexivity.
Defined.

(** ** Further statements at concrete inputs *)

Lemma Unwrap_after_Wrap_witness :
  ∃ r h', Wrap (error_other "boom") (Some 0%nat) example_store = Ret (Some r, h')
    ∧ Unwrap (Some r) h' = Ret (error_other "boom", h').
Proof.
  apply (Unwrap_after_Wrap (error_other "boom") 0%nat example_value example_store);
    [discriminate | reflexivity].
Defined.

Lemma Error_after_Wrap_witness :
  ∃ r h', Wrap (error_other "timeout") (Some 1%nat) example_chain = Ret (Some r, h')
    ∧ Error map_to_list id (Some r) h'
      = Ret ("[database:DB-500] internal database error: timeout", h').
Proof.
  exact (Error_after_Wrap map_to_list id (error_other "timeout") 1%nat _ ∅ "timeout"
           example_chain eq_refl eq_refl eq_refl eq_refl).
Defined.

Lemma WithFields_shares_argument_witness :
  ∃ r rv h1 h2, WithFields (Some 0%nat) (Some 0%nat) example_store = Ret (Some r, h1)
    ∧ map_assign (Some 0%nat) "k" "v" h1 = Ret (tt, h2)
    ∧ objs h2 !! r = Some rv
    ∧ fields_of h2 (Fields rv) = Some (<["k" := "v"]> {[ "id" := "456" ]}).
Proof.
  destruct (WithFields_shares_argument 0%nat example_value 0%nat {[ "id" := "456" ]}
              "k" "v" example_store eq_refl eq_refl)
    as (r & rv & h1 & h2 & H1 & _ & _ & _ & _ & H2 & H3 & H4).
  by exists r, rv, h1, h2.
Defined.

Lemma AddFields_result_detached_witness :
  ∃ r rv h1 h2,
    AddFields map_to_list (Some 0%nat) (Some 1%nat) example_store_arg = Ret (Some r, h1)
    ∧ map_assign (Some 1%nat) "k" "v" h1 = Ret (tt, h2)
    ∧ objs h2 !! r = Some rv
    ∧ fields_of h2 (Fields rv) = Some ({[ "id" := "789" ]} ∪ {[ "id" := "456" ]}).
Proof.
  destruct (AddFields_result_detached map_to_list (λ m, Permutation_refl _)
              0%nat example_value 1%nat {[ "id" := "789" ]} {[ "id" := "456" ]} 1%nat
              "k" "v" example_store_arg eq_refl eq_refl eq_refl
              (map_non_empty_singleton _ _) (or_introl eq_refl))
    as (r & rv & h1 & h2 & H1 & _ & H2 & H3 & H4).
  by exists r, rv, h1, h2.
Defined.

Lemma AddFields_empty_or_nil_witness :
  AddFields map_to_list (Some 0%nat) None example_store = Ret (Some 0%nat, example_store)
  ∧ AddFields map_to_list None (Some 0%nat) example_store = Panic.
Proof.
  split.
  - apply (proj1 (AddFields_empty_or_nil map_to_list)). reflexivity.
  - apply (proj1 (proj2 (AddFields_empty_or_nil map_to_list)) (Some 0%nat)
             {[ "id" := "456" ]}); [reflexivity | apply map_non_empty_singleton].
Defined.


Lemma Is_preorder_witness :
  Is map_to_list (Some 0%nat) (error_app (Some 0%nat)) example_store
  = Ret (true, example_store).
Proof.
  apply (proj1 (Is_preorder map_to_list (λ m, Permutation_refl _))
           0%nat example_value {[ "id" := "456" ]} example_store); reflexivity.
Defined.

Lemma Is_after_Wrap_and_WithGRPCCode_witness :
  ∃ r h', Wrap (error_other "boom") (Some 0%nat) example_store = Ret (Some r, h')
    ∧ Is map_to_list (Some r) (error_app (Some 0%nat)) h' = Ret (true, h')
    ∧ Is map_to_list (Some 0%nat) (error_app (Some r)) h' = Ret (true, h').
Proof.
  apply (proj1 (Is_after_Wrap_and_WithGRPCCode map_to_list (λ m, Permutation_refl _))
           (error_other "boom") 0%nat example_value {[ "id" := "456" ]} example_store);
    [discriminate | reflexivity | reflexivity].
Defined.

Lemma nil_AppError_panics_witness :
  Wrap (error_other "boom") None example_store = Panic.
Proof.
  apply (proj1 (proj2 (proj2 (proj2 (proj2 (proj2
           (nil_AppError_panics map_to_list id (λ _, true)))))))). discriminate.
Defined.

Lemma GRPCStatus_never_OK_witness :
  ∃ st, GRPCStatus (λ _, true) (Some 0%nat) example_chain = Ret (st, example_chain)
    ∧ Status_Code st ≠ codes_OK.
Proof.
  destruct (GRPCStatus_never_OK (λ _, true) 0%nat _ ∅ example_chain eq_refl eq_refl
              ltac:(simpl; lia)) as (st & H1 & H2 & _).
  by exists st.
Defined.

Lemma WithGRPCCode_round_trip_witness :
  ∃ d dv h',
    (r <- WithGRPCCode (Some 0%nat) 13 ;;
     st <- GRPCStatus (λ _, true) r ;;
     FromGRPCStatus (Some st)) example_store = Ret (Some d, h')
    ∧ objs h' !! d = Some dv
    ∧ grpcCode dv = 13
    ∧ objs h' !! 0%nat = Some example_value.
Proof.
  destruct (WithGRPCCode_round_trip (λ _, true) 0%nat example_value {[ "id" := "456" ]}
              13 example_store eq_refl eq_refl ltac:(lia) eq_refl)
    as (d & dv & h' & H1 & H2 & H3 & _ & _ & _ & _ & H4).
  by exists d, dv, h'.
Defined.

Lemma marshal_failure_degrades_witness :
  (st <- GRPCStatus (λ _, false) (Some 0%nat) ;; FromGRPCStatus (Some st)) example_store
  = Ret (Some 1%nat,
         mkHeap [example_value;
                 mkAppError "unknown" "00000" "failed to marshal error" None error_nil
                   13 ""]
                [{[ "id" := "456" ]}]).
Proof.
  apply (marshal_failure_degrades (λ _, false) 0%nat example_value {[ "id" := "456" ]}
           example_store); [reflexivity | reflexivity | simpl; lia | reflexivity].
Defined.

Lemma FromGRPCStatus_first_detail_witness :
  ∃ d dv h',
    FromGRPCStatus
      (Some (mkStatus 5 "status text"
               [Any_other;
                Any_ErrorDetail (mkErrorDetail "svc" "C1" "detail text" ∅);
                Any_ErrorDetail (mkErrorDetail "other" "C2" "later" ∅)]))
      example_store = Ret (Some d, h')
    ∧ objs h' !! d = Some dv
    ∧ Service dv = "svc" ∧ Code dv = "C1" ∧ Message dv = "detail text".
Proof.
  destruct (FromGRPCStatus_first_detail
              (mkStatus 5 "status text"
                 [Any_other;
                  Any_ErrorDetail (mkErrorDetail "svc" "C1" "detail text" ∅);
                  Any_ErrorDetail (mkErrorDetail "other" "C2" "later" ∅)])
              [Any_other] (mkErrorDetail "svc" "C1" "detail text" ∅)
              [Any_ErrorDetail (mkErrorDetail "other" "C2" "later" ∅)]
              example_store eq_refl)
    as (d & dv & h' & H1 & H2 & H3 & H4 & H5 & _).
  - intros x Hin. by apply list_elem_of_singleton in Hin.
  - by exists d, dv, h'.
Defined.

Lemma operations_keep_store_witness :
  ∃ p h', WithField map_to_list (Some 0%nat) "k" "v" example_store = Ret (p, h')
    ∧ heap_ext example_store h'.
Proof.
  eexists _, _. split; [lazy; reflexivity|].
  exact (proj1 (proj2 (proj2 (proj2
           (operations_keep_store map_to_list (λ m, Permutation_refl _) id (λ _, true)))))
           (Some 0%nat) "k" "v" _ example_store _ eq_refl).
Defined.

Lemma acyclic_preserved_witness :
  ∃ p h', Wrap (error_app (Some 1%nat)) (Some 0%nat) example_chain = Ret (p, h')
    ∧ acyclic h'.
Proof.
  eexists _, _. split; [lazy; reflexivity|].
  exact (proj1 (proj2
           (acyclic_preserved map_to_list (λ m, Permutation_refl _) id example_chain _
              eq_refl))
           (error_app (Some 1%nat)) (Some 0%nat) _ eq_refl eq_refl).
Defined.

Lemma Error_terminates_witness :
  (∃ s, Error map_to_list id (Some 1%nat) example_chain = Ret (s, example_chain))
  ∨ Error map_to_list id (Some 1%nat) example_chain = Panic.
Proof.
  apply (Error_terminates map_to_list id (Some 1%nat) example_chain). reflexivity.
Defined.

Lemma ToJSON_object_witness :
  ∃ members h',
    ToJSON map_to_list id (mkContext (any_string "abc")) (error_app (Some 0%nat))
      example_store = Ret (bytes_json members, h')
    ∧ objs h' !! 0%nat = Some (set_traceID example_value "abc")
    ∧ ∀ key val, (key, val) ∈ members ↔
        (key = "service" ∧ val = JString "user-service" ∧ "user-service" ≠ "")
        ∨ (key = "code" ∧ val = JString "US-404" ∧ "US-404" ≠ "")
        ∨ (key = "message" ∧ val = JString "user not found")
        ∨ (key = "fields" ∧ val = JStringMap {[ "id" := "456" ]}
           ∧ ({[ "id" := "456" ]} : gmap string string) ≠ ∅)
        ∨ (key = "trace_id" ∧ val = JString "abc" ∧ "abc" ≠ "").
Proof.
  exact (ToJSON_object map_to_list id (mkContext (any_string "abc")) 0%nat example_value
           {[ "id" := "456" ]} example_store eq_refl eq_refl).
Defined.

Lemma ToJSON_touches_only_traceID_witness :
  ∃ b h',
    ToJSON map_to_list id (mkContext (any_string "abc")) (error_app (Some 0%nat))
      example_store = Ret (b, h')
    ∧ maps h' = maps example_store.
Proof.
  eexists _, _. split; [lazy; reflexivity|].
  exact (proj1 (ToJSON_touches_only_traceID map_to_list id
                  (mkContext (any_string "abc")) (error_app (Some 0%nat)) _ example_store
                  _ eq_refl)).
Defined.

Lemma GRPCAppErrorHandler_AppError_witness :
  GRPCAppErrorHandler (λ _, true) example_http_code (λ _, "application/json")
    (λ _, false) (λ _, None) (mkContext (any_string "abc"))
    (error_app (Some 0%nat)) example_store
  = Ret ([Header_Set "Content-Type" "application/json";
          WriteHeader 404;
          Encode (mkHTTPError 404 "user-service" "US-404" "user not found"
                    {[ "id" := "456" ]} "abc")], example_store).
Proof.
  exact (GRPCAppErrorHandler_AppError (λ _, true) example_http_code
           (λ _, "application/json") (λ _, false) (λ _, None)
           (mkContext (any_string "abc"))
           0%nat example_value {[ "id" := "456" ]} example_store
           eq_refl eq_refl ltac:(simpl; lia) eq_refl).
Defined.

Lemma GRPCAppErrorHandler_other_errors_witness :
  GRPCAppErrorHandler (λ _, true) example_http_code (λ _, "application/json")
    (λ _, false)
    (λ _, Some (mkStatus 5 "not found"
                  [Any_other; Any_ErrorDetail (mkErrorDetail "svc" "C1" "" ∅)]))
    (mkContext any_nil)
    (error_other "rpc error: code = NotFound desc = not found") example_store
  = Ret ([Header_Set "Content-Type" "application/json";
          WriteHeader 404;
          Encode (mkHTTPError 404 "svc" "C1" "not found" ∅ "")], example_store).
Proof.
  apply (proj1 (proj2 (proj2 (proj2
           (GRPCAppErrorHandler_other_errors (λ _, true) example_http_code
              (λ _, "application/json") (λ _, false)
              (λ _, Some (mkStatus 5 "not found"
                            [Any_other; Any_ErrorDetail (mkErrorDetail "svc" "C1" "" ∅)]))
              (mkContext any_nil) example_store))))
           "rpc error: code = NotFound desc = not found"
           (mkStatus 5 "not found"
              [Any_other; Any_ErrorDetail (mkErrorDetail "svc" "C1" "" ∅)])
           [Any_other] (mkErrorDetail "svc" "C1" "" ∅) []);
    [reflexivity | reflexivity |].
  intros d Hin. by apply list_elem_of_singleton in Hin.
Defined.

Lemma errors_WithFields_in_place_witness :
  ∃ h', errors_WithFields map_to_list (Some 0%nat) (Some 1%nat) example_store_arg
        = Ret (Some 0%nat, h')
    ∧ objs h' = objs example_store_arg
    ∧ maps h' !! 0%nat = Some ({[ "id" := "789" ]} ∪ {[ "id" := "456" ]}).
Proof.
  destruct (errors_WithFields_in_place map_to_list (λ m, Permutation_refl _)
              0%nat example_value 0%nat {[ "id" := "456" ]} (Some 1%nat)
              {[ "id" := "789" ]} example_store_arg eq_refl eq_refl eq_refl eq_refl)
    as (h' & H1 & H2 & _ & H3 & _).
  by exists h'.
Defined.

Lemma errors_WithFields_nil_map_panics_witness :
  errors_WithFields map_to_list (Some 0%nat) (Some 0%nat) example_store_nil_map = Panic.
Proof.
  apply (proj1 (errors_WithFields_nil_map_panics map_to_list (λ m, Permutation_refl _))
           0%nat (mkAppError "unknown" "00000" "boom" None error_nil 2 "") (Some 0%nat)
           {[ "k" := "v" ]} example_store_nil_map);
    [reflexivity | reflexivity | reflexivity | apply map_non_empty_singleton].
Defined.

Lemma errors_New_Wrap_take_fields_witness :
  ∃ e ev h',
    (e <- errors_Wrap error_nil "svc" "C1" "msg" ;;
     errors_WithFields map_to_list e (Some 0%nat)) example_store = Ret (Some e, h')
    ∧ objs h' !! e = Some ev
    ∧ fields_of h' (Fields ev) = Some {[ "id" := "456" ]}.
Proof.
  destruct (errors_New_Wrap_take_fields map_to_list (λ m, Permutation_refl _)
              error_nil "svc" "C1" "msg" (Some 0%nat) {[ "id" := "456" ]} example_store
              eq_refl)
    as (e & ev & h' & H1 & _ & H2 & _ & H3 & _).
  by exists e, ev, h'.
Defined.

Lemma errors_WithGRPCCode_in_place_witness :
  ∃ st h',
    (r <- errors_WithGRPCCode (Some 0%nat) 13 ;;
     errors_GRPCStatus (λ _, true) (Some 0%nat)) example_store = Ret (st, h')
    ∧ errors_WithGRPCCode (Some 0%nat) 13 example_store = Ret (Some 0%nat, h')
    ∧ Status_Code st = 13.
Proof.
  destruct (errors_WithGRPCCode_in_place (λ _, true) 0%nat example_value
              {[ "id" := "456" ]} 13 example_store eq_refl eq_refl ltac:(lia) eq_refl)
    as (st & h' & H1 & _ & H2 & H3 & _).
  by exists st, h'.
Defined.
